(** * A verified model of the directory tree printer

    The program under study is a single Python module: a recursive
    function [build_tree] that lists a directory, drops hidden entries and
    [node_modules], and renders what is left with box-drawing connectors,
    plus an entry point that puts the root path in front and joins the
    lines.

    The development follows the module top-down: Python strings and their
    ordering, the part of the [os] module the code calls, the function
    itself, and then the properties of its output. *)

From Stdlib Require Import Ascii String.
From Stdlib Require Import List Bool Arith NArith ZArith Lia.
From Stdlib Require Import Sorting.Sorted Sorting.Permutation.
Import ListNotations.

Set Implicit Arguments.
#[local] Set Warnings "-register-all".

(** ** Python strings

    A Python [str] is a sequence of Unicode code points, and [len],
    slicing and comparison all work on code points.  The connectors of the
    program are outside ASCII, so a string is modelled as the list of its
    code points rather than as a byte string. *)

Definition char := N.
Definition str := list char.

(** The source file is UTF-8.  Literals are written here as they are in
    the source and decoded to code points. *)

Fixpoint utf8_decode (bs : list N) : str :=
  match bs with
  | [] => []
  | b0 :: r0 =>
      if (b0 <? 128)%N then b0 :: utf8_decode r0
      else
        match r0 with
        | [] => []
        | b1 :: r1 =>
            if (b0 <? 224)%N
            then ((b0 - 192) * 64 + (b1 - 128))%N :: utf8_decode r1
            else
              match r1 with
              | [] => []
              | b2 :: r2 =>
                  if (b0 <? 240)%N
                  then ((b0 - 224) * 4096 + (b1 - 128) * 64 + (b2 - 128))%N
                         :: utf8_decode r2
                  else
                    match r2 with
                    | [] => []
                    | b3 :: r3 =>
                        ((b0 - 240) * 262144 + (b1 - 128) * 4096
                         + (b2 - 128) * 64 + (b3 - 128))%N
                          :: utf8_decode r3
                    end
              end
        end
  end.

Definition text (s : string) : str :=
  utf8_decode (map N_of_ascii (list_ascii_of_string s)).

Fixpoint str_eqb (s t : str) : bool :=
  match s, t with
  | [], [] => true
  | c :: s', d :: t' => (c =? d)%N && str_eqb s' t'
  | _, _ => false
  end.

(** [s.startswith(pre)] and [s.endswith(suf)]. *)

Fixpoint startswith (s pre : str) : bool :=
  match pre with
  | [] => true
  | c :: pre' =>
      match s with
      | [] => false
      | d :: s' => (d =? c)%N && startswith s' pre'
      end
  end.

Definition endswith (s suf : str) : bool :=
  startswith (rev s) (rev suf).

Definition newline : str := [10%N].

(** [sep.join(lines)]. *)

Fixpoint str_join (sep : str) (lines : list str) : str :=
  match lines with
  | [] => []
  | [l] => l
  | l :: rest => l ++ sep ++ str_join sep rest
  end.

(** *** Ordering

    Python compares two strings code point by code point; a proper prefix
    is smaller.  [lex_le] states that order, [str_leb] computes it. *)

Inductive lex_le : str -> str -> Prop :=
| lex_le_nil : forall t, lex_le [] t
| lex_le_lt : forall c d s t, (c < d)%N -> lex_le (c :: s) (d :: t)
| lex_le_eq : forall c s t, lex_le s t -> lex_le (c :: s) (c :: t).

Fixpoint str_leb (s t : str) : bool :=
  match s, t with
  | [], _ => true
  | _ :: _, [] => false
  | c :: s', d :: t' =>
      if (c <? d)%N then true
      else if (c =? d)%N then str_leb s' t'
      else false
  end.

(** [sorted(names)] on a list of strings.  Python's sort is stable and the
    order is total, so its result is the one sorted permutation of the
    input (see [sorted_unique]); insertion sort computes the same list. *)

Fixpoint insert (x : str) (l : list str) : list str :=
  match l with
  | [] => [x]
  | y :: l' => if str_leb x y then x :: l else y :: insert x l'
  end.

Definition sorted (names : list str) : list str :=
  fold_right insert [] names.

(** ** Outcomes

    A call either returns a value, or raises, or does not come back.  The
    last case shows up in the model as running out of fuel.

    The exceptions are those of a failed [os.listdir].  [PermissionError],
    [FileNotFoundError] and [NotADirectoryError] are subclasses of
    [OSError] and of nothing else here, so [except PermissionError]
    catches the first and none of the others; [OSError] stands for any
    remaining failure of the call. *)

Inductive exn : Type :=
| PermissionError
| FileNotFoundError
| NotADirectoryError
| OSError.

Inductive result (A : Type) : Type :=
| Ok (a : A)
| Raise (e : exn)
| OutOfFuel.

Arguments Raise {A} e.
Arguments OutOfFuel {A}.

Definition bind {A B : Type} (r : result A) (k : A -> result B) : result B :=
  match r with
  | Ok a => k a
  | Raise e => Raise e
  | OutOfFuel => OutOfFuel
  end.

Notation "x <- r ;; k" := (bind r (fun x => k))
  (at level 61, r at next level, right associativity).

Definition fmap {A B : Type} (f : A -> B) (r : result A) : result B :=
  x <- r ;; Ok (f x).

(** ** The [os] module

    The program reaches the outside world through three calls:
    [os.listdir], [os.path.isdir] and [os.path.join].  A value of [OS] is
    one fixed state of the file system together with the platform's path
    join.  [os.listdir] gives the names in an arbitrary order or raises;
    [os.path.isdir] never raises. *)

Record OS : Type := {
  listdir : str -> exn + list str;
  isdir : str -> bool;
  join : str -> str -> str
}.

(** [posixpath.join] for one component. *)

Definition posix_join (a b : str) : str :=
  if startswith b (text "/") then b
  else if str_eqb a [] || endswith a (text "/") then a ++ b
  else a ++ text "/" ++ b.

(** ** The program *)

Definition hidden_marker : str := text ".".
Definition node_modules : str := text "node_modules".

Definition terminal : str := text "└── ".
Definition continuation : str := text "├── ".
Definition four_spaces : str := text "    ".
Definition bar_segment : str := text "│   ".

(** The condition of the list comprehension. *)

Definition keep (entry : str) : bool :=
  negb (startswith entry hidden_marker) && negb (str_eqb entry node_modules).

Definition is_last_at (entries : list str) (index : nat) : bool :=
  (Z.of_nat index =? Z.of_nat (length entries) - 1)%Z.

Definition connector (is_last : bool) : str :=
  if is_last then terminal else continuation.

Definition indent (is_last : bool) : str :=
  if is_last then four_spaces else bar_segment.

Section Program.

Variable os : OS.

(** The body of [for index, entry in enumerate(entries)], from position
    [index] on; [rec] is the recursive call and [output_lines] the list
    built so far. *)

Fixpoint for_entries (rec : str -> str -> result (list str))
    (start_path prefix : str) (entries : list str)
    (index : nat) (rest : list str) (output_lines : list str)
  : result (list str) :=
  match rest with
  | [] => Ok output_lines
  | entry :: rest' =>
      let path := join os start_path entry in
      let is_last := is_last_at entries index in
      let output_lines :=
        output_lines ++ [prefix ++ connector is_last ++ entry] in
      if isdir os path then
        let new_prefix := prefix ++ indent is_last in
        sub <- rec path new_prefix ;;
        for_entries rec start_path prefix entries (S index) rest'
          (output_lines ++ sub)
      else
        for_entries rec start_path prefix entries (S index) rest'
          output_lines
  end.

(** [fuel] bounds the depth of the recursion, a device of the model: the
    statements below are about the outcomes that do not depend on it.
    The interpreter's own limit on the depth of recursion is not
    modelled. *)

Fixpoint build_tree (fuel : nat) (start_path prefix : str)
  : result (list str) :=
  match fuel with
  | O => OutOfFuel
  | S fuel' =>
      let output_lines := [] in
      match listdir os start_path with
      | inl PermissionError => Ok output_lines
      | inl e => Raise e
      | inr names =>
          let entries := sorted names in
          let entries := filter keep entries in
          for_entries (build_tree fuel') start_path prefix entries
            0 entries output_lines
      end
  end.

(** The entry point.  [lines] is the root path, then the tree. *)

Definition main_lines (fuel : nat) (directory : str) : result (list str) :=
  let lines := [directory] in
  sub <- build_tree fuel directory [] ;;
  Ok (lines ++ sub).

(** *** Writing the result

    With the lines in hand the entry point opens [file.txt] for writing,
    writes the joined lines, closes the file and prints a message.  Each
    of these steps can fail, and what is left behind depends on the step
    that failed.

    - [open('file.txt', 'w', encoding='utf-8')] raises when the file
      cannot be created or opened; nothing has been touched then.  When
      it works the file exists and is empty.
    - [f.write] encodes the text as UTF-8 before anything reaches the
      file.  A surrogate code point, as [os.listdir] gives for a name
      that is not valid UTF-8, cannot be encoded: the write raises
      [UnicodeEncodeError] and the file stays empty.
    - Writing the encoded text and closing the file can fail in the
      operating system; what the file holds then is not determined.
    - [print] writes the message and a newline.

    Whether the operating system lets a step through is not decided by
    the program: a [Sink] says, for each step, which error it raises, if
    any. *)

Record Sink : Type := {
  open_error : str -> option exn;
  write_error : str -> str -> option exn;
  print_error : str -> option exn
}.

Inductive failure : Type :=
| ListdirRaised (e : exn)
| OpenRaised (e : exn)
| UnicodeEncodeError
| WriteRaised (e : exn)
| PrintRaised (e : exn).

(** What a file, or the console, holds after the run, as text: the
    file is opened in text mode, so this is what reading it back in text
    mode gives. *)

Inductive content : Type :=
| Untouched
| Holds (s : str)
| Undetermined.

(** A run that ends: the exception that ended it, if one did, and what
    it left in [file.txt] and on the console. *)

Record run : Type := {
  raised : option failure;
  file_txt : content;
  console : content
}.

Definition surrogate (c : char) : bool :=
  (55296 <=? c)%N && (c <=? 57343)%N.

Definition encodable (s : str) : bool :=
  forallb (fun c => negb (surrogate c)) s.

Definition message : str := text "Directory tree saved to file.txt".

(** [argument] is the optional positional argument, with [.] for
    default; a command line that [argparse] turns down ends the program
    before any of this.  The result is [None] when [build_tree] does not
    come back. *)

Definition main (sink : Sink) (fuel : nat) (argument : option str)
  : option run :=
  let directory :=
    match argument with
    | Some d => d
    | None => text "."
    end in
  match main_lines fuel directory with
  | OutOfFuel => None
  | Raise e =>
      Some {| raised := Some (ListdirRaised e);
              file_txt := Untouched;
              console := Untouched |}
  | Ok lines =>
      match open_error sink (text "file.txt") with
      | Some e =>
          Some {| raised := Some (OpenRaised e);
                  file_txt := Untouched;
                  console := Untouched |}
      | None =>
          let joined := str_join newline lines in
          if encodable joined then
            match write_error sink (text "file.txt") joined with
            | Some e =>
                Some {| raised := Some (WriteRaised e);
                        file_txt := Undetermined;
                        console := Untouched |}
            | None =>
                match print_error sink message with
                | Some e =>
                    Some {| raised := Some (PrintRaised e);
                            file_txt := Holds joined;
                            console := Undetermined |}
                | None =>
                    Some {| raised := None;
                            file_txt := Holds joined;
                            console := Holds (message ++ newline) |}
                end
            end
          else
            Some {| raised := Some UnicodeEncodeError;
                    file_txt := Holds [];
                    console := Untouched |}
      end
  end.

End Program.

(** ** Reading the output

    The definitions below are not part of the program; they are the
    vocabulary in which its output is described. *)

(** A name that the filter lets through. *)

Definition allowed (name : str) : Prop :=
  startswith name (text ".") = false /\ name <> text "node_modules".

(** The children of a directory that the loop goes through, in the order
    in which it does. *)

Definition kept (names : list str) : list str := filter keep (sorted names).

Section Reading.

Variable os : OS.

(** What one child contributes: its own line, then the lines of its
    subtree when it is a directory. *)

Definition block (rec : str -> str -> result (list str))
    (start_path prefix : str) (entries : list str)
    (index : nat) (entry : str) : result (list str) :=
  let is_last := is_last_at entries index in
  let line := prefix ++ connector is_last ++ entry in
  if isdir os (join os start_path entry) then
    sub <- rec (join os start_path entry) (prefix ++ indent is_last) ;;
    Ok (line :: sub)
  else Ok [line].

Fixpoint blocks (rec : str -> str -> result (list str))
    (start_path prefix : str) (entries : list str)
    (index : nat) (rest : list str) : result (list (list str)) :=
  match rest with
  | [] => Ok []
  | entry :: rest' =>
      b <- block rec start_path prefix entries index entry ;;
      bs <- blocks rec start_path prefix entries (S index) rest' ;;
      Ok (b :: bs)
  end.

(** [visits start prefix chain dir p]: a call on [start] with [prefix]
    reaches the directory [dir] through the children named in [chain],
    and calls itself there with prefix [p].  The length of [chain] is
    the depth of the recursion. *)

Inductive visits (start prefix : str) : list str -> str -> str -> Prop :=
| visits_start : visits start prefix [] start prefix
| visits_child : forall chain dir p names index entry,
    visits start prefix chain dir p ->
    listdir os dir = inr names ->
    nth_error (kept names) index = Some entry ->
    isdir os (join os dir entry) = true ->
    visits start prefix (chain ++ [entry]) (join os dir entry)
      (p ++ indent (is_last_at (kept names) index)).

End Reading.

(** The number of lines below one child, read off a run with the empty
    prefix. *)

Definition lines_under (os : OS) (fuel : nat) (root entry : str) : nat :=
  S (if isdir os (join os root entry)
     then match build_tree os fuel (join os root entry) [] with
          | Ok l => length l
          | _ => 0
          end
     else 0).

(** Two observations of one file system state: [os.listdir] promises no
    order, so two listings of an unchanged directory agree up to order. *)

Definition same_listing (r1 r2 : exn + list str) : Prop :=
  match r1, r2 with
  | inl e1, inl e2 => e1 = e2
  | inr l1, inr l2 => Permutation l1 l2
  | _, _ => False
  end.

Definition same_state (os1 os2 : OS) : Prop :=
  (forall p, same_listing (listdir os1 p) (listdir os2 p)) /\
  (forall p, isdir os1 p = isdir os2 p) /\
  (forall p e, join os1 p e = join os2 p e).

(** ** Directory trees

    A finite file system without cycles is a tree.  A directory has its
    children by name; its listing either works or raises ([failure]). *)

Inductive node : Type :=
| File
| Dir (failure : option exn) (children : list (str * node)).

Fixpoint depth (t : node) : nat :=
  match t with
  | File => 0
  | Dir _ cs => S (list_max (map (fun nc => depth (snd nc)) cs))
  end.

(** All files and directories below [t]. *)

Fixpoint total_entries (t : node) : nat :=
  match t with
  | File => 0
  | Dir _ cs => list_sum (map (fun nc => S (total_entries (snd nc))) cs)
  end.

(** The files and directories that a descent from [t] reaches: the
    children of every directory it can list, and what is reached from
    them.  Nothing is reached through a directory whose listing fails. *)

Fixpoint reachable_entries (t : node) : nat :=
  match t with
  | File => 0
  | Dir (Some _) _ => 0
  | Dir None cs => list_sum (map (fun nc => S (reachable_entries (snd nc))) cs)
  end.

(** [represents os path t]: the state [os] has the tree [t] at [path]. *)

Inductive represents (os : OS) : str -> node -> Prop :=
| represents_file : forall path,
    isdir os path = false ->
    listdir os path = inl NotADirectoryError ->
    represents os path File
| represents_dir : forall path failure cs,
    isdir os path = true ->
    listdir os path =
      match failure with
      | Some e => inl e
      | None => inr (map fst cs)
      end ->
    Forall (fun nc => represents os (join os path (fst nc)) (snd nc)) cs ->
    represents os path (Dir failure cs).

(** No name in the tree is hidden or [node_modules]. *)

Inductive clean : node -> Prop :=
| clean_file : clean File
| clean_dir : forall failure cs,
    Forall (fun nc => allowed (fst nc) /\ clean (snd nc)) cs ->
    clean (Dir failure cs).

(** The only listing failure in the tree is a denied permission. *)

Inductive permission_only : node -> Prop :=
| permission_only_file : permission_only File
| permission_only_dir : forall failure cs,
    (failure = None \/ failure = Some PermissionError) ->
    Forall (fun nc => permission_only (snd nc)) cs ->
    permission_only (Dir failure cs).

(** Every directory of the tree can be listed. *)

Inductive listable : node -> Prop :=
| listable_file : listable File
| listable_dir : forall cs,
    Forall (fun nc => listable (snd nc)) cs ->
    listable (Dir None cs).

(** ** A file system given by a table

    For concrete runs the state is a table from paths to what is there,
    with the POSIX path join. *)

Inductive inode : Type :=
| RegularFile
| Directory (listing : exn + list str).

Definition disk := list (str * inode).

Fixpoint lookup (d : disk) (p : str) : option inode :=
  match d with
  | [] => None
  | (q, i) :: d' => if str_eqb q p then Some i else lookup d' p
  end.

Definition os_of_disk (d : disk) : OS := {|
  listdir p :=
    match lookup d p with
    | Some (Directory l) => l
    | Some RegularFile => inl NotADirectoryError
    | None => inl FileNotFoundError
    end;
  isdir p :=
    match lookup d p with
    | Some (Directory _) => true
    | _ => false
    end;
  join := posix_join
|}.

(** The example of the specification. *)

Definition example_disk : disk :=
  [ (text "root", Directory (inr [text "z.txt"; text "sub"; text "a.txt"]));
    (text "root/a.txt", RegularFile);
    (text "root/z.txt", RegularFile);
    (text "root/sub", Directory (inr [text "inner.txt"]));
    (text "root/sub/inner.txt", RegularFile) ].

Definition example_tree : node :=
  Dir None
    [ (text "z.txt", File);
      (text "sub", Dir None [(text "inner.txt", File)]);
      (text "a.txt", File) ].

Definition sub_name : str := text "sub".
Definition a_txt : str := text "a.txt".
Definition z_txt : str := text "z.txt".
Definition inner_txt : str := text "inner.txt".

(** A home directory with a vault that may not be listed. *)

Definition home_disk : disk :=
  [ (text "home", Directory (inr [text "vault"; text "notes"]));
    (text "home/notes", RegularFile);
    (text "home/vault", Directory (inl PermissionError));
    (text "home/vault/key", RegularFile) ].

Definition home_tree : node :=
  Dir None
    [ (text "vault", Dir (Some PermissionError) [(text "key", File)]);
      (text "notes", File) ].

(** A project directory with what the program leaves out, a directory
    that may not be listed ([private], which holds a file all the same)
    and one whose listing fails otherwise ([broken]). *)

Definition project_disk : disk :=
  [ (text "proj",
     Directory (inr [text "src"; text ".git"; text "node_modules";
                     text "README"; text "private"; text ".secret"]));
    (text "proj/src", Directory (inr [text "b"; text ".secret"; text "a";
                                      text "c"; text "node_modules"]));
    (text "proj/src/a", RegularFile);
    (text "proj/src/b", RegularFile);
    (text "proj/src/c", RegularFile);
    (text "proj/src/.secret", RegularFile);
    (text "proj/src/node_modules", RegularFile);
    (text "proj/.git", Directory (inr [text "config"]));
    (text "proj/.git/config", RegularFile);
    (text "proj/node_modules", Directory (inr [text "left-pad"]));
    (text "proj/node_modules/left-pad", Directory (inr [text "index.js"]));
    (text "proj/node_modules/left-pad/index.js", RegularFile);
    (text "proj/README", RegularFile);
    (text "proj/private", Directory (inl PermissionError));
    (text "proj/private/key", RegularFile);
    (text "proj/.secret", RegularFile);
    (text "work", Directory (inr [text "broken"; text "a"]));
    (text "work/a", RegularFile);
    (text "work/broken", Directory (inl OSError)) ].

Definition example_os : OS := os_of_disk example_disk.
Definition home_os : OS := os_of_disk home_disk.
Definition project_os : OS := os_of_disk project_disk.

(** The example again, with the root listed in another order. *)

Definition example_disk_again : disk :=
  [ (text "root", Directory (inr [text "sub"; text "a.txt"; text "z.txt"]));
    (text "root/a.txt", RegularFile);
    (text "root/z.txt", RegularFile);
    (text "root/sub", Directory (inr [text "inner.txt"]));
    (text "root/sub/inner.txt", RegularFile) ].

Definition project_names : list str :=
  [text "src"; text ".git"; text "node_modules";
   text "README"; text "private"; text ".secret"].

Definition project_lines : list str :=
  [ text "├── README";
    text "├── private";
    text "└── src";
    text "    ├── a";
    text "    ├── b";
    text "    └── c" ].

(** The three siblings of the ordering example, with a capital in the
    same directory for the case. *)

Definition abc_os : OS :=
  os_of_disk
    [ (text "d", Directory (inr [text "b"; text "a"; text "c"]));
      (text "d/a", RegularFile);
      (text "d/b", RegularFile);
      (text "d/c", RegularFile) ].

(** The example with something odd behind [a.txt]: a listing of that
    path would give a name, although the path is no directory. *)

Definition example_os_ghost : OS := {|
  listdir p :=
    if str_eqb (text "root/a.txt") p then inr [text "ghost"]
    else listdir example_os p;
  isdir := isdir example_os;
  join := join example_os
|}.

(** ** More vocabulary

    Whether [entry] is the last of [entries], by name: with the distinct
    names of a directory this is the test [index == len(entries) - 1] of
    the loop. *)

Definition is_last_name (entries : list str) (entry : str) : bool :=
  match rev entries with
  | final :: _ => str_eqb final entry
  | [] => false
  end.

(** The prefix that the recursion has built up when it arrives below the
    directories named in [chain], one after the other, from [start]. *)

Fixpoint ancestors_prefix (os : OS) (start prefix : str)
    (chain : list str) : str :=
  match chain with
  | [] => prefix
  | entry :: chain' =>
      match listdir os start with
      | inr names =>
          ancestors_prefix os (join os start entry)
            (prefix ++ indent (is_last_name (kept names) entry)) chain'
      | inl _ => prefix
      end
  end.

(** The lines of a directory that holds no directory. *)

Fixpoint flat_lines (prefix : str) (entries : list str) : list str :=
  match entries with
  | [] => []
  | [entry] => [prefix ++ terminal ++ entry]
  | entry :: rest => (prefix ++ continuation ++ entry) :: flat_lines prefix rest
  end.

(** A directory with nothing to show. *)

Definition dot_os : OS :=
  os_of_disk
    [ (text "conf", Directory (inr [text ".a"; text "node_modules";
                                    text ".b"]));
      (text "conf/.a", RegularFile);
      (text "conf/node_modules", Directory (inr [text "x"]));
      (text "conf/node_modules/x", RegularFile);
      (text "conf/.b", Directory (inr [])) ].

(** An application directory, and the same with other things behind the
    names that the program leaves out. *)

Definition app_disk : disk :=
  [ (text "app", Directory (inr [text "node_modules"; text "main.js";
                                 text ".env"; text "lib"]));
    (text "app/node_modules", Directory (inr [text "dep"]));
    (text "app/node_modules/dep", RegularFile);
    (text "app/main.js", RegularFile);
    (text "app/.env", RegularFile);
    (text "app/lib", Directory (inr [text "util.js"]));
    (text "app/lib/util.js", RegularFile) ].

Definition app_disk_other : disk :=
  [ (text "app", Directory (inr [text "node_modules"; text "main.js";
                                 text ".env"; text "lib"]));
    (text "app/node_modules", Directory (inr [text "dep"; text "extra"]));
    (text "app/node_modules/dep", Directory (inl OSError));
    (text "app/node_modules/extra", RegularFile);
    (text "app/main.js", RegularFile);
    (text "app/.env", Directory (inr [text "x"]));
    (text "app/lib", Directory (inr [text "util.js"]));
    (text "app/lib/util.js", RegularFile) ].

Definition app_os : OS := os_of_disk app_disk.
Definition app_os_other : OS := os_of_disk app_disk_other.

(** Sinks: one that lets every step through, and one in a directory
    where no file may be created. *)

Definition willing_sink : Sink := {|
  open_error := fun _ => None;
  write_error := fun _ _ => None;
  print_error := fun _ => None
|}.

Definition read_only_sink : Sink := {|
  open_error := fun _ => Some PermissionError;
  write_error := fun _ _ => None;
  print_error := fun _ => None
|}.

(** A directory with a name that is not valid UTF-8: [os.listdir] gives
    the byte 0x80 as the surrogate U+DC80. *)

Definition odd_name : str := [97; 56448]%N.

Definition odd_os : OS :=
  os_of_disk
    [ (text "odd", Directory (inr [odd_name; text "b"]));
      (text "odd/b", RegularFile) ].

(** * Properties *)

(** ** The model at work *)

Example connectors_code_points :
  terminal = [9492; 9472; 9472; 32]%N /\
  continuation = [9500; 9472; 9472; 32]%N /\
  four_spaces = [32; 32; 32; 32]%N /\
  bar_segment = [9474; 32; 32; 32]%N.
Proof. repeat split. Qed.

Example posix_join_runs :
  posix_join (text "root") (text "sub") = text "root/sub" /\
  posix_join (text "root/") (text "sub") = text "root/sub" /\
  posix_join [] (text "sub") = text "sub" /\
  posix_join (text ".") (text "src") = text "./src".
Proof. repeat split. Qed.

Example sorted_is_case_sensitive :
  sorted [text "b"; text "B"; text "a"; text "ab"; text "Z"; text "_"]
  = [text "B"; text "Z"; text "_"; text "a"; text "ab"; text "b"].
Proof. reflexivity. Qed.

Example project_run :
  build_tree project_os 2 (text "proj") [] = Ok project_lines /\
  build_tree project_os 1 (text "proj") [] = OutOfFuel /\
  build_tree project_os 2 (text "work") [] = Raise OSError.
Proof. repeat split. Qed.

Example main_run :
  main example_os willing_sink 2 (Some (text "root"))
  = Some {| raised := None;
            file_txt := Holds (text "root" ++ newline
                               ++ text "├── a.txt" ++ newline
                               ++ text "├── sub" ++ newline
                               ++ text "│   └── inner.txt" ++ newline
                               ++ text "└── z.txt");
            console := Holds (text "Directory tree saved to file.txt"
                              ++ newline) |} /\
  main example_os read_only_sink 2 (Some (text "root"))
  = Some {| raised := Some (OpenRaised PermissionError);
            file_txt := Untouched;
            console := Untouched |} /\
  main odd_os willing_sink 1 (Some (text "odd"))
  = Some {| raised := Some UnicodeEncodeError;
            file_txt := Holds [];
            console := Untouched |}.
Proof. repeat split. Qed.

(** ** Strings and their order *)

Lemma str_eqb_eq (s t : str) : str_eqb s t = true <-> s = t.
Proof.
  revert t. induction s as [|c s IH]; intros [|d t]; simpl;
    try (split; [discriminate | congruence]); try tauto.
  rewrite andb_true_iff, N.eqb_eq, IH. split.
  - intros [-> ->]. reflexivity.
  - intros E. injection E. auto.
Qed.

Lemma str_eqb_refl (s : str) : str_eqb s s = true.
Proof. apply str_eqb_eq. reflexivity. Qed.

Lemma keep_allowed (name : str) : keep name = true <-> allowed name.
Proof.
  unfold keep, allowed, hidden_marker, node_modules.
  rewrite andb_true_iff, !negb_true_iff.
  split; intros [H1 H2]; split; auto.
  - intros E. apply str_eqb_eq in E. congruence.
  - destruct (str_eqb name (text "node_modules")) eqn:E; auto.
    apply str_eqb_eq in E. contradiction.
Qed.

Lemma str_leb_lex (s t : str) : str_leb s t = true <-> lex_le s t.
Proof.
  revert t. induction s as [|c s IH]; intros t.
  - simpl. split; auto using lex_le_nil.
  - destruct t as [|d t]; simpl.
    + split; [discriminate | intros H; inversion H].
    + destruct (N.ltb_spec c d) as [L|L].
      * split; auto using lex_le_lt.
      * destruct (N.eqb_spec c d) as [E|E].
        -- subst d. rewrite IH. split; [apply lex_le_eq|].
           intros H. inversion H; subst; auto. lia.
        -- split; [discriminate|].
           intros H. inversion H; subst; [lia | congruence].
Qed.

Lemma lex_le_refl (s : str) : lex_le s s.
Proof. induction s; auto using lex_le_nil, lex_le_eq. Qed.

Lemma lex_le_total (s t : str) : lex_le s t \/ lex_le t s.
Proof.
  revert t. induction s as [|c s IH]; intros t.
  - left. apply lex_le_nil.
  - destruct t as [|d t].
    + right. apply lex_le_nil.
    + destruct (N.lt_trichotomy c d) as [L|[E|L]].
      * left. apply lex_le_lt. exact L.
      * subst d. destruct (IH t); auto using lex_le_eq.
      * right. apply lex_le_lt. exact L.
Qed.

Lemma lex_le_antisym (s t : str) : lex_le s t -> lex_le t s -> s = t.
Proof.
  intros H. induction H as [t|c d s t L|c s t H IH]; intros G.
  - inversion G. reflexivity.
  - inversion G; subst; lia.
  - inversion G; subst; [lia|]. f_equal. auto.
Qed.

Lemma lex_le_trans (s t u : str) : lex_le s t -> lex_le t u -> lex_le s u.
Proof.
  intros H. revert u.
  induction H as [t|c d s t L|c s t H IH]; intros u G.
  - apply lex_le_nil.
  - inversion G; subst; apply lex_le_lt; lia.
  - inversion G; subst.
    + apply lex_le_lt. assumption.
    + apply lex_le_eq. auto.
Qed.

(** ** Sorting *)

Lemma insert_perm (x : str) (l : list str) : Permutation (x :: l) (insert x l).
Proof.
  induction l as [|y l IH]; simpl; auto.
  destruct (str_leb x y); auto.
  eapply perm_trans; [apply perm_swap|]. auto.
Qed.

Lemma sorted_perm (l : list str) : Permutation l (sorted l).
Proof.
  induction l as [|x l IH]; simpl; auto.
  eapply perm_trans; [|apply insert_perm]. auto.
Qed.

Lemma insert_sorted (x : str) (l : list str) :
  StronglySorted lex_le l -> StronglySorted lex_le (insert x l).
Proof.
  induction l as [|y l IH]; intros H; simpl.
  - repeat constructor.
  - inversion H as [|? ? Hs Hf]; subst.
    destruct (str_leb x y) eqn:E.
    + apply str_leb_lex in E. constructor; auto.
      constructor; auto.
      eapply Forall_impl; [|exact Hf].
      intros z Hz. eapply lex_le_trans; eauto.
    + assert (L : lex_le y x).
      { destruct (lex_le_total x y) as [G|G]; auto.
        apply str_leb_lex in G. congruence. }
      constructor; auto.
      eapply Permutation_Forall; [apply insert_perm|].
      constructor; auto.
Qed.

Lemma sorted_sorted (l : list str) : StronglySorted lex_le (sorted l).
Proof.
  induction l as [|x l IH]; simpl.
  - constructor.
  - apply insert_sorted. exact IH.
Qed.

Lemma strongly_sorted_unique (l1 l2 : list str) :
  StronglySorted lex_le l1 -> StronglySorted lex_le l2 ->
  Permutation l1 l2 -> l1 = l2.
Proof.
  revert l2. induction l1 as [|a l1 IH]; intros l2 S1 S2 P.
  - apply Permutation_nil in P. auto.
  - destruct l2 as [|b l2].
    + apply Permutation_sym, Permutation_nil in P. discriminate.
    + inversion S1 as [|? ? S1' F1]; inversion S2 as [|? ? S2' F2]; subst.
      assert (a = b).
      { apply lex_le_antisym.
        - assert (I : In b (a :: l1)).
          { eapply Permutation_in; [apply Permutation_sym; exact P|].
            left. reflexivity. }
          destruct I as [->|I]; [apply lex_le_refl|].
          rewrite Forall_forall in F1. auto.
        - assert (I : In a (b :: l2)).
          { eapply Permutation_in; [exact P|]. left. reflexivity. }
          destruct I as [->|I]; [apply lex_le_refl|].
          rewrite Forall_forall in F2. auto. }
      subst b. f_equal. apply IH; auto.
      eapply Permutation_cons_inv. exact P.
Qed.

Lemma sorted_unique (l1 l2 : list str) :
  Permutation l1 l2 -> sorted l1 = sorted l2.
Proof.
  intros P. apply strongly_sorted_unique; auto using sorted_sorted.
  eapply perm_trans; [apply Permutation_sym, sorted_perm|].
  eapply perm_trans; [exact P|]. apply sorted_perm.
Qed.

Lemma filter_sorted (f : str -> bool) (l : list str) :
  StronglySorted lex_le l -> StronglySorted lex_le (filter f l).
Proof.
  induction 1 as [|x l S IH F]; simpl; [constructor|].
  destruct (f x); auto. constructor; auto.
  rewrite Forall_forall in *. intros y Hy.
  apply filter_In in Hy. apply F. tauto.
Qed.

Lemma kept_sorted (names : list str) : StronglySorted lex_le (kept names).
Proof. apply filter_sorted, sorted_sorted. Qed.

Lemma kept_perm (names : list str) :
  Permutation (kept names) (filter keep names).
Proof.
  unfold kept.
  assert (G : forall l l' : list str,
             Permutation l l' -> Permutation (filter keep l) (filter keep l')).
  { induction 1; simpl; auto.
    - destruct (keep x); auto.
    - destruct (keep x), (keep y); auto. apply perm_swap.
    - eapply perm_trans; eauto. }
  apply G, Permutation_sym, sorted_perm.
Qed.

Lemma kept_In (names : list str) (entry : str) :
  In entry (kept names) <-> In entry names /\ allowed entry.
Proof.
  unfold kept. rewrite filter_In, keep_allowed.
  split; intros [H1 H2]; split; auto.
  - eapply Permutation_in; [apply Permutation_sym, sorted_perm|]. exact H1.
  - eapply Permutation_in; [apply sorted_perm|]. exact H1.
Qed.

(** ** The loop, block by block *)

Section Loop.

Variable os : OS.

Lemma for_entries_blocks rec start_path prefix entries rest :
  forall index output_lines,
    for_entries os rec start_path prefix entries index rest output_lines =
    (bs <- blocks os rec start_path prefix entries index rest ;;
     Ok (output_lines ++ concat bs)).
Proof.
  induction rest as [|entry rest IH]; intros index acc; simpl.
  - rewrite app_nil_r. reflexivity.
  - unfold block.
    destruct (isdir os (join os start_path entry)).
    + destruct (rec _ _) as [sub| |]; simpl; auto.
      rewrite IH.
      destruct (blocks _ _ _ _ _ _ _) as [bs| |]; simpl; auto.
      rewrite <- !app_assoc. reflexivity.
    + simpl. rewrite IH.
      destruct (blocks _ _ _ _ _ _ _) as [bs| |]; simpl; auto.
      rewrite <- !app_assoc. reflexivity.
Qed.

Lemma build_tree_listed fuel start_path prefix names :
  listdir os start_path = inr names ->
  build_tree os (S fuel) start_path prefix =
  (bs <- blocks os (build_tree os fuel) start_path prefix
           (kept names) 0 (kept names) ;;
   Ok (concat bs)).
Proof.
  intros H. simpl. rewrite H. apply for_entries_blocks.
Qed.

Lemma build_tree_denied fuel start_path prefix :
  listdir os start_path = inl PermissionError ->
  build_tree os (S fuel) start_path prefix = Ok [].
Proof. intros H. simpl. rewrite H. reflexivity. Qed.

Lemma build_tree_raises fuel start_path prefix e :
  e <> PermissionError ->
  listdir os start_path = inl e ->
  build_tree os (S fuel) start_path prefix = Raise e.
Proof.
  intros N H. simpl. rewrite H. destruct e; congruence.
Qed.

Lemma blocks_nth rec start_path prefix entries rest :
  forall index bs,
    blocks os rec start_path prefix entries index rest = Ok bs ->
    length bs = length rest /\
    forall i entry,
      nth_error rest i = Some entry ->
      exists b,
        nth_error bs i = Some b /\
        block os rec start_path prefix entries (index + i) entry = Ok b.
Proof.
  induction rest as [|e rest IH]; intros index bs H; simpl in H.
  - injection H as <-. split; auto.
    intros [|i] entry E; discriminate.
  - destruct (block _ _ _ _ _ _ _) as [b| |] eqn:B; try discriminate.
    simpl in H.
    destruct (blocks _ _ _ _ _ _ _) as [bs'| |] eqn:R; try discriminate.
    injection H as <-.
    destruct (IH _ _ R) as [L N].
    split; [simpl; congruence|].
    intros [|i] entry E; simpl in E.
    + injection E as <-. exists b. rewrite Nat.add_0_r. auto.
    + destruct (N _ _ E) as [b' [E1 E2]]. exists b'. split; auto.
      rewrite <- E2. f_equal. lia.
Qed.

Lemma blocks_returns rec start_path prefix entries rest :
  forall index,
    (forall i entry,
        nth_error rest i = Some entry ->
        exists b,
          block os rec start_path prefix entries (index + i) entry = Ok b) ->
    exists bs, blocks os rec start_path prefix entries index rest = Ok bs.
Proof.
  induction rest as [|e rest IH]; intros index H; simpl.
  - eauto.
  - destruct (H 0 e eq_refl) as [b B].
    rewrite Nat.add_0_r in B. rewrite B. simpl.
    destruct (IH (S index)) as [bs R].
    + intros i entry E. destruct (H (S i) entry E) as [b' B'].
      exists b'. rewrite <- B'. f_equal. lia.
    + rewrite R. simpl. eauto.
Qed.

Lemma block_inv rec start_path prefix entries index entry b :
  block os rec start_path prefix entries index entry = Ok b ->
  exists sub,
    b = (prefix ++ connector (is_last_at entries index) ++ entry) :: sub /\
    if isdir os (join os start_path entry)
    then rec (join os start_path entry)
           (prefix ++ indent (is_last_at entries index)) = Ok sub
    else sub = [].
Proof.
  unfold block. destruct (isdir os _).
  - destruct (rec _ _) as [sub| |]; simpl; try discriminate.
    intros E. injection E as <-. eauto.
  - intros E. injection E as <-. eauto.
Qed.

(** More fuel does not change the outcome of a call that came back. *)

Lemma blocks_more rec1 rec2 start_path prefix entries rest :
  (forall p q, rec1 p q <> OutOfFuel -> rec2 p q = rec1 p q) ->
  forall index,
    blocks os rec1 start_path prefix entries index rest <> OutOfFuel ->
    blocks os rec2 start_path prefix entries index rest =
    blocks os rec1 start_path prefix entries index rest.
Proof.
  intros M. induction rest as [|e rest IH]; intros index H; simpl in *; auto.
  unfold block in *.
  destruct (isdir os _).
  - destruct (rec1 _ _) as [sub| |] eqn:R; simpl in *.
    + rewrite M, R by congruence. simpl.
      rewrite IH; auto.
      destruct (blocks os rec1 _ _ _ _ _); simpl in *; congruence.
    + rewrite M, R by congruence. reflexivity.
    + congruence.
  - simpl in *. rewrite IH; auto.
    destruct (blocks os rec1 _ _ _ _ _); simpl in *; congruence.
Qed.

Lemma build_tree_more fuel :
  forall start_path prefix,
    build_tree os fuel start_path prefix <> OutOfFuel ->
    build_tree os (S fuel) start_path prefix =
    build_tree os fuel start_path prefix.
Proof.
  induction fuel as [|fuel IH]; intros start_path prefix H.
  - simpl in H. congruence.
  - destruct (listdir os start_path) as [e|names] eqn:L.
    + simpl. rewrite L. reflexivity.
    + rewrite (build_tree_listed (S fuel) _ _ L).
      rewrite (build_tree_listed fuel _ _ L) in *.
      rewrite blocks_more with (rec1 := build_tree os fuel); auto.
      destruct (blocks os (build_tree os fuel) _ _ _ _ _);
        simpl in *; congruence.
Qed.

Lemma build_tree_stable fuel fuel' start_path prefix :
  fuel <= fuel' ->
  build_tree os fuel start_path prefix <> OutOfFuel ->
  build_tree os fuel' start_path prefix =
  build_tree os fuel start_path prefix.
Proof.
  induction 1 as [|fuel' L IH]; intros H; auto.
  rewrite build_tree_more; rewrite IH; auto.
Qed.

(** The prefix is only ever put in front. *)

Lemma blocks_prefix rec start_path prefix entries rest :
  (forall p q, rec p q = fmap (map (app q)) (rec p [])) ->
  forall index,
    blocks os rec start_path prefix entries index rest =
    fmap (map (map (app prefix)))
      (blocks os rec start_path [] entries index rest).
Proof.
  intros R. induction rest as [|e rest IH]; intros index; simpl; auto.
  rewrite IH. unfold block.
  destruct (isdir os _); simpl.
  - rewrite R. rewrite (R _ (indent _)).
    destruct (rec _ []) as [sub| |]; simpl; auto.
    destruct (blocks os rec start_path [] entries (S index) rest);
      simpl; auto.
    rewrite map_map. do 3 f_equal.
    apply map_ext. intros l. rewrite app_assoc. reflexivity.
  - destruct (blocks os rec start_path [] entries (S index) rest);
      simpl; auto.
Qed.

Lemma build_tree_prefix fuel :
  forall start_path prefix,
    build_tree os fuel start_path prefix =
    fmap (map (app prefix)) (build_tree os fuel start_path []).
Proof.
  induction fuel as [|fuel IH]; intros start_path prefix; auto.
  destruct (listdir os start_path) as [e|names] eqn:L.
  - simpl. rewrite L. destruct e; reflexivity.
  - rewrite !(build_tree_listed fuel _ _ L).
    rewrite blocks_prefix by exact IH.
    destruct (blocks os (build_tree os fuel) start_path [] _ _ _);
      simpl; auto.
    rewrite concat_map. reflexivity.
Qed.

End Loop.

Lemma is_last_at_nth (entries : list str) (index : nat) (entry : str) :
  nth_error entries index = Some entry ->
  is_last_at entries index = (index =? length entries - 1).
Proof.
  intros E. assert (L : index < length entries).
  { apply nth_error_Some. congruence. }
  unfold is_last_at.
  destruct (Nat.eqb_spec index (length entries - 1)) as [Q|Q].
  - apply Z.eqb_eq. lia.
  - apply Z.eqb_neq. lia.
Qed.

Lemma blocks_Forall2 os rec start_path prefix entries rest :
  forall index bs,
    blocks os rec start_path prefix entries index rest = Ok bs ->
    Forall2
      (fun entry b =>
         exists i, block os rec start_path prefix entries i entry = Ok b)
      rest bs.
Proof.
  induction rest as [|e rest IH]; intros index bs H; simpl in H.
  - injection H as <-. constructor.
  - destruct (block _ _ _ _ _ _ _) as [b| |] eqn:B; try discriminate.
    simpl in H.
    destruct (blocks _ _ _ _ _ _ _) as [bs'| |] eqn:R; try discriminate.
    injection H as <-. constructor; eauto.
Qed.

Lemma build_tree_split (os : OS) (fuel : nat) (path prefix : str)
    (names lines : list str) :
  listdir os path = inr names ->
  build_tree os (S fuel) path prefix = Ok lines ->
  exists bs,
    lines = concat bs /\
    length bs = length (kept names) /\
    forall index entry,
      nth_error (kept names) index = Some entry ->
      exists sub,
        nth_error bs index =
          Some ((prefix
                 ++ connector (index =? length (kept names) - 1)
                 ++ entry) :: sub) /\
        if isdir os (join os path entry)
        then build_tree os fuel (join os path entry)
               (prefix ++ indent (index =? length (kept names) - 1))
             = Ok sub
        else sub = [].
Proof.
  intros L H.
  rewrite (build_tree_listed os fuel path prefix L) in H.
  destruct (blocks os _ _ _ _ _ _) as [bs| |] eqn:B; try discriminate.
  simpl in H. injection H as <-.
  destruct (blocks_nth _ _ _ _ _ _ _ B) as [Len Nth].
  exists bs. repeat split; auto.
  intros index entry E.
  destruct (Nth _ _ E) as [b [E1 E2]]. simpl in E2.
  destruct (block_inv _ _ _ _ _ _ _ E2) as [sub [-> S]].
  exists sub. rewrite (is_last_at_nth _ _ E) in *. split; auto.
Qed.

Lemma build_tree_returns (os : OS) (fuel : nat) (path prefix : str)
    (names : list str) :
  listdir os path = inr names ->
  (forall index entry,
      nth_error (kept names) index = Some entry ->
      isdir os (join os path entry) = true ->
      exists sub,
        build_tree os fuel (join os path entry)
          (prefix ++ indent (index =? length (kept names) - 1)) = Ok sub) ->
  exists lines, build_tree os (S fuel) path prefix = Ok lines.
Proof.
  intros L H.
  rewrite (build_tree_listed os fuel path prefix L).
  destruct (blocks_returns os (build_tree os fuel) path prefix
              (kept names) (kept names) 0) as [bs B].
  - intros i entry E. simpl. unfold block.
    destruct (isdir os (join os path entry)) eqn:D; eauto.
    destruct (H _ _ E D) as [sub S].
    rewrite (is_last_at_nth _ _ E). rewrite S. simpl. eauto.
  - rewrite B. simpl. eauto.
Qed.

(** ** The shape of the output *)

(** C1.  Let [entries] be the sorted children of [path] that pass the
    filter.  When [build_tree] returns, its lines are the concatenation of
    one block per entry, in that order.  The block of an entry starts with
    the line [prefix + connector + name], with the terminal connector for
    the entry at the last index and the continuation connector otherwise;
    for a directory the rest of the block is what the recursive call on
    it returns with the prefix extended by four spaces (last) or by the
    bar segment (not last); for anything else the block is that one line.
    And [build_tree] does return when the recursive calls on the kept
    directories do. *)
Theorem build_tree_children (os : OS) (fuel : nat) (path prefix : str)
    (names : list str) :
  listdir os path = inr names ->
  let entries := filter keep (sorted names) in
  let last index := index =? length entries - 1 in
  (forall lines,
      build_tree os (S fuel) path prefix = Ok lines ->
      exists bs,
        lines = concat bs /\
        length bs = length entries /\
        forall index entry,
          nth_error entries index = Some entry ->
          exists sub,
            nth_error bs index =
              Some ((prefix
                     ++ (if last index then terminal else continuation)
                     ++ entry) :: sub) /\
            if isdir os (join os path entry)
            then build_tree os fuel (join os path entry)
                   (prefix
                    ++ (if last index then four_spaces else bar_segment))
                 = Ok sub
            else sub = []) /\
  ((forall index entry,
       nth_error entries index = Some entry ->
       isdir os (join os path entry) = true ->
       exists sub,
         build_tree os fuel (join os path entry)
           (prefix ++ (if last index then four_spaces else bar_segment))
         = Ok sub) ->
   exists lines, build_tree os (S fuel) path prefix = Ok lines).
Proof.
  intros L entries last. split.
  - intros lines H. exact (build_tree_split os fuel path prefix L H).
  - intros H. exact (build_tree_returns os fuel path prefix L H).
Qed.

(** C3.  The children appear in the output in the lexicographic order of
    their names: the output splits into one block per listed child, each
    block headed by the line of its child, and the children so listed are
    in non-decreasing order for the code point order of strings and are
    the names of the directory that pass the filter.  For a directory
    holding [b], [a] and [c], whatever the order of the listing, they are
    [a], [b], [c]. *)
Theorem build_tree_sorted (os : OS) (fuel : nat) (path prefix : str)
    (names lines : list str) :
  listdir os path = inr names ->
  build_tree os (S fuel) path prefix = Ok lines ->
  exists entries bs,
    lines = concat bs /\
    Forall2
      (fun entry b =>
         exists is_last sub,
           b = (prefix ++ connector is_last ++ entry) :: sub /\
           if isdir os (join os path entry)
           then build_tree os fuel (join os path entry)
                  (prefix ++ indent is_last) = Ok sub
           else sub = [])
      entries bs /\
    StronglySorted lex_le entries /\
    Permutation entries (filter keep names) /\
    (Permutation names [text "b"; text "a"; text "c"] ->
     entries = [text "a"; text "b"; text "c"]).
Proof.
  intros L H.
  rewrite (build_tree_listed os fuel path prefix L) in H.
  destruct (blocks os _ _ _ _ _ _) as [bs| |] eqn:B; try discriminate.
  simpl in H. injection H as <-.
  exists (kept names), bs. repeat split.
  - eapply Forall2_impl; [|exact (blocks_Forall2 _ _ _ _ _ _ _ B)].
    intros entry b [i E]. cbv beta in E.
    destruct (block_inv _ _ _ _ _ _ _ E) as [sub [-> S]]. eauto.
  - apply kept_sorted.
  - apply kept_perm.
  - intros P. unfold kept. rewrite (sorted_unique P). reflexivity.
Qed.


(** ** Where a line comes from *)

Ltac reassoc := repeat (rewrite <- app_assoc; simpl); reflexivity.

Section Provenance.

Variable os : OS.

Lemma visits_cons start prefix names index entry chain dir p :
  listdir os start = inr names ->
  nth_error (kept names) index = Some entry ->
  isdir os (join os start entry) = true ->
  visits os (join os start entry)
    (prefix ++ indent (is_last_at (kept names) index)) chain dir p ->
  visits os start prefix (entry :: chain) dir p.
Proof.
  intros L E D V. induction V.
  - change [entry] with ([] ++ [entry]).
    eapply visits_child; eauto. constructor.
  - rewrite app_comm_cons. eapply visits_child; eauto.
Qed.

Lemma visits_path start prefix chain dir p :
  visits os start prefix chain dir p ->
  dir = fold_left (join os) chain start.
Proof.
  induction 1; auto.
  rewrite fold_left_app. simpl. congruence.
Qed.

Lemma visits_allowed start prefix chain dir p :
  visits os start prefix chain dir p -> Forall allowed chain.
Proof.
  induction 1 as [|chain dir p names index entry V IH L E D]; auto.
  apply Forall_app. split; auto.
  constructor; auto.
  apply nth_error_In in E. apply kept_In in E. tauto.
Qed.

Lemma indent_length (is_last : bool) : length (indent is_last) = 4.
Proof. destruct is_last; reflexivity. Qed.

Lemma visits_depth start prefix chain dir p :
  visits os start prefix chain dir p ->
  length p = length prefix + 4 * length chain.
Proof.
  induction 1; simpl; [lia|].
  rewrite !length_app, indent_length. simpl. lia.
Qed.

Lemma build_tree_provenance fuel :
  forall start prefix lines,
    build_tree os fuel start prefix = Ok lines ->
    forall l,
      In l lines ->
      exists chain dir p names index entry,
        visits os start prefix chain dir p /\
        listdir os dir = inr names /\
        nth_error (kept names) index = Some entry /\
        l = p ++ connector (index =? length (kept names) - 1) ++ entry.
Proof.
  induction fuel as [|fuel IH]; intros start prefix lines H l I.
  - discriminate.
  - destruct (listdir os start) as [e|names] eqn:L.
    + simpl in H. rewrite L in H.
      destruct e; try discriminate.
      injection H as <-. contradiction.
    + destruct (build_tree_split os fuel start prefix L H)
        as [bs [-> [Len Nth]]].
      apply in_concat in I. destruct I as [b [Ib Il]].
      destruct (In_nth_error _ _ Ib) as [index Eb].
      destruct (nth_error (kept names) index) as [entry|] eqn:E.
      * destruct (Nth _ _ E) as [sub [E1 E2]].
        assert (b = (prefix
                     ++ connector (index =? length (kept names) - 1)
                     ++ entry) :: sub) by congruence.
        subst b. destruct Il as [<-|Il].
        -- exists [], start, prefix, names, index, entry.
           repeat split; auto. constructor.
        -- destruct (isdir os (join os start entry)) eqn:D;
             [|subst sub; contradiction].
           destruct (IH _ _ _ E2 _ Il)
             as (chain & dir & p & names' & index' & entry' & V & R).
           exists (entry :: chain), dir, p, names', index', entry'.
           split; auto.
           eapply visits_cons; eauto.
           rewrite (is_last_at_nth _ _ E). exact V.
      * apply nth_error_None in E.
        assert (index < length bs) by (apply nth_error_Some; congruence).
        lia.
Qed.

Lemma child_segment fuel dir p names index entry lines :
  build_tree os (S fuel) dir p = Ok lines ->
  listdir os dir = inr names ->
  nth_error (kept names) index = Some entry ->
  isdir os (join os dir entry) = true ->
  exists pre sub post,
    lines = pre
            ++ (p ++ connector (index =? length (kept names) - 1) ++ entry)
               :: sub ++ post /\
    build_tree os fuel (join os dir entry)
      (p ++ indent (index =? length (kept names) - 1)) = Ok sub.
Proof.
  intros H L E D.
  destruct (build_tree_split os fuel dir p L H) as [bs [-> [Len Nth]]].
  destruct (Nth _ _ E) as [sub [E1 E2]]. rewrite D in E2.
  destruct (nth_error_split _ _ E1) as (l1 & l2 & -> & _).
  exists (concat l1), sub, (concat l2). split; auto.
  rewrite concat_app. reflexivity.
Qed.

Lemma visits_segment fuel start prefix lines :
  build_tree os fuel start prefix = Ok lines ->
  forall chain dir p,
    visits os start prefix chain dir p ->
    exists fuel' sub pre post,
      build_tree os fuel' dir p = Ok sub /\
      lines = pre ++ sub ++ post.
Proof.
  intros H chain dir p V.
  induction V as [|chain dir p names index entry V IH L E D].
  - exists fuel, lines, [], []. rewrite app_nil_r. auto.
  - destruct IH as (fuel' & sub & pre & post & R & ->).
    destruct fuel' as [|fuel']; [discriminate|].
    destruct (child_segment _ _ _ _ R L E D)
      as (pre' & sub' & post' & -> & R').
    rewrite (is_last_at_nth _ _ E).
    exists fuel', sub',
      (pre ++ pre'
       ++ [p ++ connector (index =? length (kept names) - 1) ++ entry]),
      (post' ++ post).
    split; auto. reassoc.
Qed.

End Provenance.

(** C2.  Every line that [build_tree] returns is the line of an entry
    listed in a directory that the recursion visits, with the prefix of
    that directory in front.  The recursion goes from the start path down
    to that directory through listed names that pass the filter and the
    directory test, one after the other, and the entry passes the filter
    too: neither its name nor the name of any directory on the way begins
    with [.] or is [node_modules].  So hidden entries, [node_modules], and
    whatever lies beneath them produce no line, at any depth. *)
Theorem build_tree_excludes (os : OS) (fuel : nat) (start prefix : str)
    (lines : list str) (l : str) :
  build_tree os fuel start prefix = Ok lines ->
  In l lines ->
  exists (chain : list str) (dir p : str) (names : list str)
         (entry : str) (is_last : bool),
    visits os start prefix chain dir p /\
    dir = fold_left (join os) chain start /\
    listdir os dir = inr names /\
    In entry names /\
    l = p ++ connector is_last ++ entry /\
    Forall (fun name =>
              startswith name (text ".") = false /\
              name <> text "node_modules")
      (chain ++ [entry]).
Proof.
  intros H I.
  destruct (build_tree_provenance os fuel _ _ H _ I)
    as (chain & dir & p & names & index & entry & V & L & E & ->).
  exists chain, dir, p, names, entry, (index =? length (kept names) - 1).
  apply nth_error_In, kept_In in E. destruct E as [E1 E2].
  split; [exact V|]. split; [exact (visits_path V)|].
  repeat split; auto.
  apply Forall_app. split.
  - exact (visits_allowed V).
  - constructor; auto.
Qed.

(** C6.  In the output of a call, every directory that the recursion
    visits has its own line followed at once by the lines that the call on
    that directory returns, as one uninterrupted run.  Every line is the
    line of an entry of a visited directory, and the prefix in front of
    its connector is the starting prefix followed by four characters for
    each level of recursion between the starting call and the call that
    emitted it. *)
Theorem build_tree_contiguous (os : OS) (fuel : nat) (start prefix : str)
    (lines : list str) :
  build_tree os fuel start prefix = Ok lines ->
  (forall chain dir p names index entry,
      visits os start prefix chain dir p ->
      listdir os dir = inr names ->
      nth_error (filter keep (sorted names)) index = Some entry ->
      isdir os (join os dir entry) = true ->
      let is_last := index =? length (filter keep (sorted names)) - 1 in
      exists pre sub post fuel',
        lines = pre ++ (p ++ connector is_last ++ entry) :: sub ++ post /\
        build_tree os fuel' (join os dir entry) (p ++ indent is_last)
        = Ok sub) /\
  (forall l,
      In l lines ->
      exists chain dir p names index entry,
        visits os start prefix chain dir p /\
        listdir os dir = inr names /\
        nth_error (filter keep (sorted names)) index = Some entry /\
        l = p
            ++ connector (index =? length (filter keep (sorted names)) - 1)
            ++ entry /\
        length p = length prefix + 4 * length chain).
Proof.
  intros H. split.
  - intros chain dir p names index entry V L E D is_last.
    destruct (visits_segment fuel H V)
      as (fuel' & sub & pre & post & R & ->).
    destruct fuel' as [|fuel']; [discriminate|].
    destruct (child_segment os _ _ _ _ R L E D)
      as (pre' & sub' & post' & -> & R').
    exists (pre ++ pre'), sub', (post' ++ post), fuel'.
    split; auto.
    reassoc.
  - intros l I.
    destruct (build_tree_provenance os fuel _ _ H _ I)
      as (chain & dir & p & names & index & entry & V & L & E & ->).
    exists chain, dir, p, names, index, entry.
    repeat split; auto.
    exact (visits_depth V).
Qed.

(** C9.  The prefix is only put in front of the lines: a call with prefix
    [p] has the outcome of the call with the empty prefix, with [p] put in
    front of every line. *)
Theorem build_tree_prefix_hom (os : OS) (fuel : nat) (path p : str) :
  build_tree os fuel path p =
  fmap (map (fun line => p ++ line)) (build_tree os fuel path []).
Proof. apply build_tree_prefix. Qed.

(** ** Determinism *)

Lemma blocks_same (os1 os2 : OS) rec1 rec2 start_path prefix entries rest :
  (forall p, isdir os1 p = isdir os2 p) ->
  (forall p e, join os1 p e = join os2 p e) ->
  (forall p q, rec1 p q = rec2 p q) ->
  forall index,
    blocks os1 rec1 start_path prefix entries index rest =
    blocks os2 rec2 start_path prefix entries index rest.
Proof.
  intros D J R. induction rest as [|e rest IH]; intros index; simpl; auto.
  unfold block. rewrite IH, D, J, R. reflexivity.
Qed.

Lemma build_tree_same (os1 os2 : OS) :
  same_state os1 os2 ->
  forall fuel start_path prefix,
    build_tree os1 fuel start_path prefix =
    build_tree os2 fuel start_path prefix.
Proof.
  intros (SL & D & J). induction fuel as [|fuel IH]; intros sp prefix; auto.
  specialize (SL sp). unfold same_listing in SL.
  destruct (listdir os1 sp) as [e1|l1] eqn:L1,
           (listdir os2 sp) as [e2|l2] eqn:L2; try contradiction.
  - simpl. rewrite L1, L2, SL. reflexivity.
  - rewrite (build_tree_listed os1 fuel sp prefix L1).
    rewrite (build_tree_listed os2 fuel sp prefix L2).
    unfold kept. rewrite (sorted_unique SL).
    apply f_equal2; auto. apply blocks_same; auto.
Qed.

(** C8.  The outcome of [build_tree] is a function of the state of the
    file system, the path and the prefix.  Two runs on the same path and
    prefix over the same state give the same lines, or raise the same
    error, although the two runs may be handed the names of a directory
    in different orders, and whatever amount of fuel each run is given in
    the model, as long as it is enough for the run to come back. *)
Theorem build_tree_deterministic (os1 os2 : OS) (fuel1 fuel2 : nat)
    (path prefix : str) :
  same_state os1 os2 ->
  build_tree os1 fuel1 path prefix <> OutOfFuel ->
  build_tree os2 fuel2 path prefix <> OutOfFuel ->
  build_tree os1 fuel1 path prefix = build_tree os2 fuel2 path prefix.
Proof.
  intros S H1 H2.
  rewrite <- (build_tree_stable os1 path prefix
                (Nat.le_max_l fuel1 fuel2) H1).
  rewrite <- (build_tree_stable os2 path prefix
                (Nat.le_max_r fuel1 fuel2) H2).
  apply build_tree_same. exact S.
Qed.

(** ** Directory trees *)

Lemma node_induction (P : node -> Prop) :
  P File ->
  (forall failure cs,
      Forall (fun nc => P (snd nc)) cs -> P (Dir failure cs)) ->
  forall t, P t.
Proof.
  intros PF PD.
  fix IH 1. intros [|failure cs].
  - exact PF.
  - apply PD. induction cs as [|[n c] cs IHcs]; constructor.
    + apply IH.
    + exact IHcs.
Qed.

Lemma depth_child (n : str) (c : node) (cs : list (str * node)) failure :
  In (n, c) cs -> depth c < depth (Dir failure cs).
Proof.
  intros I. simpl.
  assert (F : Forall (fun k => k <= list_max
                                 (map (fun nc => depth (snd nc)) cs))
                (map (fun nc => depth (snd nc)) cs)).
  { apply list_max_le. lia. }
  rewrite Forall_forall in F.
  specialize (F (depth c)).
  assert (In (depth c) (map (fun nc => depth (snd nc)) cs)).
  { apply in_map_iff. exists (n, c). auto. }
  apply F in H. lia.
Qed.

Lemma blocks_comes_back (os : OS) rec start_path prefix entries rest :
  (forall e q,
      In e rest ->
      isdir os (join os start_path e) = true ->
      rec (join os start_path e) q <> OutOfFuel) ->
  forall index,
    blocks os rec start_path prefix entries index rest <> OutOfFuel.
Proof.
  induction rest as [|e rest IH]; intros H index; simpl; [discriminate|].
  unfold block.
  assert (G : blocks os rec start_path prefix entries (S index) rest
              <> OutOfFuel).
  { apply IH. intros e' q I. apply H. right. exact I. }
  destruct (isdir os (join os start_path e)) eqn:D.
  - specialize (H e (prefix ++ indent (is_last_at entries index))
                  (or_introl eq_refl) D).
    destruct (rec _ _); simpl; try congruence.
    destruct (blocks _ _ _ _ _ _ _); simpl; congruence.
  - simpl. destruct (blocks _ _ _ _ _ _ _); simpl; congruence.
Qed.

Lemma represents_child (os : OS) (path : str) failure cs (entry : str) :
  represents os path (Dir failure cs) ->
  In entry (map fst cs) ->
  exists c, In (entry, c) cs /\ represents os (join os path entry) c.
Proof.
  intros R I. inversion R as [|? ? ? D L F]; subst.
  apply in_map_iff in I. destruct I as [[n c] [E I]].
  simpl in E. subst n. exists c. split; auto.
  rewrite Forall_forall in F. exact (F _ I).
Qed.

Lemma build_tree_comes_back (os : OS) (t : node) :
  forall root prefix fuel,
    represents os root t ->
    depth t < fuel ->
    build_tree os fuel root prefix <> OutOfFuel.
Proof.
  induction t as [|failure cs IH] using node_induction;
    intros root prefix fuel R Dp;
    (destruct fuel as [|fuel]; [lia|]).
  - inversion R; subst. simpl. rewrite H0. discriminate.
  - inversion R as [|? ? ? D L F]; subst.
    destruct failure as [e|].
    + simpl. rewrite L. destruct e; discriminate.
    + rewrite (build_tree_listed os fuel root prefix L).
      assert (B : blocks os (build_tree os fuel) root prefix
                    (kept (map fst cs)) 0 (kept (map fst cs))
                  <> OutOfFuel).
      { apply blocks_comes_back. intros e q I _.
        apply kept_In in I. destruct I as [I _].
        destruct (@represents_child _ _ _ _ _ R I) as [c [Ic Rc]].
        rewrite Forall_forall in IH.
        apply (IH _ Ic); auto.
        pose proof (@depth_child _ _ _ None Ic). simpl in *. lia. }
      destruct (blocks _ _ _ _ _ _ _); simpl; congruence.
Qed.

Lemma blocks_plain (os : OS) rec start_path prefix entries rest :
  (forall e, In e rest -> isdir os (join os start_path e) = false) ->
  forall index,
    exists bs,
      blocks os rec start_path prefix entries index rest = Ok bs /\
      length (concat bs) = length rest.
Proof.
  induction rest as [|e rest IH]; intros H index; simpl.
  - exists []. auto.
  - unfold block. rewrite (H e (or_introl eq_refl)). simpl.
    destruct (IH (fun e' I => H e' (or_intror I)) (S index))
      as [bs [-> Len]].
    simpl. eexists. split; [reflexivity|]. simpl. congruence.
Qed.

Lemma blocks_only_dirs (os1 os2 : OS) rec1 rec2 start_path prefix entries
    rest :
  (forall p, isdir os1 p = isdir os2 p) ->
  (forall p e, join os1 p e = join os2 p e) ->
  (forall e q,
      isdir os1 (join os1 start_path e) = true ->
      rec1 (join os1 start_path e) q = rec2 (join os1 start_path e) q) ->
  forall index,
    blocks os1 rec1 start_path prefix entries index rest =
    blocks os2 rec2 start_path prefix entries index rest.
Proof.
  intros D J R. induction rest as [|e rest IH]; intros index; simpl; auto.
  unfold block. rewrite IH, <- D, <- J.
  destruct (isdir os1 (join os1 start_path e)) eqn:E; auto.
  rewrite R by exact E. reflexivity.
Qed.

Lemma build_tree_only_dirs (os1 os2 : OS) :
  (forall p, isdir os1 p = isdir os2 p) ->
  (forall p e, join os1 p e = join os2 p e) ->
  (forall p, isdir os1 p = true -> listdir os1 p = listdir os2 p) ->
  forall fuel path prefix,
    listdir os1 path = listdir os2 path ->
    build_tree os1 fuel path prefix = build_tree os2 fuel path prefix.
Proof.
  intros D J L. induction fuel as [|fuel IH]; intros path prefix E; auto.
  destruct (listdir os1 path) as [e|names] eqn:L1.
  - simpl. rewrite <- E, L1. reflexivity.
  - rewrite (build_tree_listed os1 fuel path prefix L1).
    rewrite (build_tree_listed os2 fuel path prefix (eq_sym E)).
    apply f_equal2; auto.
    apply blocks_only_dirs; auto.
Qed.

(** C10.  [build_tree] comes back on a finite file system without cycles,
    that is, one that a tree represents: every amount of fuel above the
    depth of the tree gives one and the same outcome, which is lines or
    an error and not exhaustion.  The recursion is entered for directories
    only: a directory none of whose kept children passes the directory
    test is done without any recursive call, with one line for each kept
    child; and what listing a path that fails the directory test would
    give has no influence on the outcome. *)
Theorem build_tree_terminates (os : OS) (prefix : str) :
  (forall root t,
      represents os root t ->
      exists r,
        r <> OutOfFuel /\
        forall fuel, depth t < fuel -> build_tree os fuel root prefix = r) /\
  (forall path names,
      listdir os path = inr names ->
      (forall entry,
          In entry names ->
          allowed entry ->
          isdir os (join os path entry) = false) ->
      exists lines,
        build_tree os 1 path prefix = Ok lines /\
        length lines = length (filter keep names)) /\
  (forall os' path,
      (forall p, isdir os p = isdir os' p) ->
      (forall p e, join os p e = join os' p e) ->
      (forall p, isdir os p = true -> listdir os p = listdir os' p) ->
      listdir os path = listdir os' path ->
      forall fuel,
        build_tree os fuel path prefix = build_tree os' fuel path prefix).
Proof.
  split; [|split].
  - intros root t R.
    exists (build_tree os (S (depth t)) root prefix).
    assert (B : build_tree os (S (depth t)) root prefix <> OutOfFuel).
    { apply build_tree_comes_back with (t := t); auto. }
    split; auto.
    intros fuel Dp. apply build_tree_stable; auto.
  - intros path names L H.
    rewrite (build_tree_listed os 0 path prefix L).
    destruct (blocks_plain os (build_tree os 0) path prefix
                (kept names) (kept names)) with (index := 0)
      as [bs [B Len]].
    + intros e I. apply kept_In in I. destruct I. auto.
    + rewrite B. simpl. exists (concat bs). split; auto.
      rewrite Len. apply Permutation_length, kept_perm.
  - intros os' path D J L E fuel.
    apply build_tree_only_dirs; auto.
Qed.

(** ** Counting lines *)

Lemma list_sum_perm (l l' : list nat) :
  Permutation l l' -> list_sum l = list_sum l'.
Proof. induction 1; simpl; lia. Qed.

Lemma filter_all (f : str -> bool) (l : list str) :
  Forall (fun x => f x = true) l -> filter f l = l.
Proof.
  induction 1 as [|x l H F IH]; simpl; auto.
  rewrite H, IH. reflexivity.
Qed.

Lemma reachable_total (t : node) :
  listable t -> reachable_entries t = total_entries t.
Proof.
  induction t as [|failure cs IH] using node_induction; intros L; auto.
  inversion L as [|? F]; subst. simpl. f_equal.
  apply map_ext_in. intros nc I.
  rewrite Forall_forall in IH, F. rewrite IH; auto.
Qed.

Lemma build_tree_lists (os : OS) (t : node) :
  forall root prefix fuel,
    represents os root t ->
    permission_only t ->
    depth t < fuel ->
    isdir os root = true ->
    exists lines, build_tree os fuel root prefix = Ok lines.
Proof.
  induction t as [|failure cs IH] using node_induction;
    intros root prefix fuel R P Dp Dr;
    (destruct fuel as [|fuel]; [lia|]).
  - inversion R; subst. congruence.
  - inversion R as [|? ? ? D L F]; subst.
    inversion P as [|? ? PF FP]; subst.
    destruct failure as [e|].
    + destruct PF as [PF|PF]; [discriminate|]. injection PF as ->.
      exists []. simpl. rewrite L. reflexivity.
    + apply (build_tree_returns os fuel root prefix L).
      intros index entry E Dn.
      apply nth_error_In, kept_In in E. destruct E as [I _].
      destruct (@represents_child _ _ _ _ _ R I) as [c [Ic Rc]].
      rewrite Forall_forall in IH, FP.
      apply (IH _ Ic (join os root entry) _ fuel Rc (FP _ Ic)); [|exact Dn].
      pose proof (@depth_child _ _ _ None Ic). simpl in *. lia.
Qed.

Lemma Forall2_in_left (A B : Type) (R : A -> B -> Prop) l l' x :
  Forall2 R l l' -> In x l -> exists y, In y l' /\ R x y.
Proof.
  induction 1 as [|a b l l' Rab F IH]; intros I; [contradiction|].
  destruct I as [<-|I].
  - exists b. split; [left; reflexivity | exact Rab].
  - destruct (IH I) as [y [Iy Ry]]. exists y. split; [right|]; auto.
Qed.

Lemma concat_length_Forall2 (g : str -> nat) (es : list str)
    (bs : list (list str)) :
  Forall2 (fun e b => length b = g e) es bs ->
  length (concat bs) = list_sum (map g es).
Proof.
  induction 1 as [|e b es bs E F IH]; simpl; auto.
  rewrite length_app. lia.
Qed.

Lemma block_length (os : OS) (fuel : nat) root prefix entries index entry b :
  block os (build_tree os fuel) root prefix entries index entry = Ok b ->
  length b = lines_under os fuel root entry /\
  (isdir os (join os root entry) = true ->
   exists p sub,
     build_tree os fuel (join os root entry) p = Ok sub /\
     lines_under os fuel root entry = S (length sub)).
Proof.
  intros E. destruct (block_inv _ _ _ _ _ _ _ E) as [sub [-> S]].
  unfold lines_under.
  destruct (isdir os (join os root entry)) eqn:D.
  - pose proof S as S'. rewrite build_tree_prefix in S'.
    destruct (build_tree os fuel (join os root entry) []) as [l0| |];
      try discriminate.
    simpl in S'. injection S' as <-. simpl. rewrite length_map.
    split; auto. intros _. do 2 eexists. split; [exact S|].
    rewrite length_map. reflexivity.
  - subst sub. split; auto. discriminate.
Qed.

Lemma build_tree_counted (os : OS) (t : node) :
  forall root prefix fuel lines,
    represents os root t ->
    clean t ->
    build_tree os fuel root prefix = Ok lines ->
    length lines = reachable_entries t.
Proof.
  induction t as [|failure cs IH] using node_induction;
    intros root prefix fuel lines R C H;
    (destruct fuel as [|fuel]; [discriminate|]).
  - inversion R as [? D L|]; subst. simpl in H. rewrite L in H. discriminate.
  - inversion R as [|? ? ? D L F]; subst.
    inversion C as [|? ? FC]; subst.
    destruct failure as [e|].
    + simpl in H. rewrite L in H. destruct e; try discriminate.
      injection H as <-. reflexivity.
    + rewrite (build_tree_listed os fuel root prefix L) in H.
      destruct (blocks os _ _ _ _ _ _) as [bs| |] eqn:B; try discriminate.
      simpl in H. injection H as <-.
      pose proof (blocks_Forall2 _ _ _ _ _ _ _ B) as F2.
      rewrite Forall_forall in IH, F, FC.
      assert (K : Permutation (kept (map fst cs)) (map fst cs)).
      { eapply perm_trans; [apply kept_perm|].
        rewrite filter_all; auto.
        apply Forall_forall. intros n I.
        apply in_map_iff in I. destruct I as [[n' c] [E I]].
        simpl in E. subst n'. apply keep_allowed.
        exact (proj1 (FC _ I)). }
      rewrite (concat_length_Forall2 (lines_under os fuel root)
                 (es := kept (map fst cs))).
      * rewrite (list_sum_perm (Permutation_map _ K)).
        simpl. rewrite map_map. f_equal.
        apply map_ext_in. intros [n c] I. simpl.
        assert (In n (kept (map fst cs))) as Ik.
        { eapply Permutation_in; [apply Permutation_sym; exact K|].
          apply in_map_iff. exists (n, c). auto. }
        destruct (Forall2_in_left _ F2 Ik) as [b [_ [i E]]].
        destruct (block_length _ _ _ _ _ _ _ E) as [_ G].
        pose proof (F _ I) as Rc. destruct (FC _ I) as [_ Cc].
        simpl in Rc, Cc.
        destruct (isdir os (join os root n)) eqn:Dn.
        -- destruct (G eq_refl) as (p & sub & S1 & ->).
           f_equal. exact (IH _ I _ _ _ _ Rc Cc S1).
        -- unfold lines_under. rewrite Dn.
           destruct c; [reflexivity|]. inversion Rc; subst. congruence.
      * eapply Forall2_impl; [|exact F2].
        intros e b [i E]. exact (proj1 (block_length _ _ _ _ _ _ _ E)).
Qed.

(** C5.  Take a directory tree in which no name begins with [.] and none
    is [node_modules].  Whenever [build_tree] on its root returns, the
    number of lines it returns is the number of files and directories
    that a recursive descent from the root reaches: the children of every
    directory that can be listed, at every level.  When every directory
    can be listed these are all the files and directories of the tree.
    And [build_tree] does return when the root is a directory and no
    listing in the tree fails for another reason than permission. *)
Theorem build_tree_line_count (os : OS) (root prefix : str) (t : node) :
  represents os root t ->
  clean t ->
  (forall fuel lines,
      build_tree os fuel root prefix = Ok lines ->
      length lines = reachable_entries t /\
      (listable t -> length lines = total_entries t)) /\
  (permission_only t ->
   t <> File ->
   exists lines,
     forall fuel, depth t < fuel -> build_tree os fuel root prefix = Ok lines).
Proof.
  intros R C. split.
  - intros fuel lines H.
    pose proof (build_tree_counted prefix fuel R C H) as Len.
    split; auto.
    intros L. rewrite Len. apply reachable_total. exact L.
  - intros P N.
    assert (D : isdir os root = true).
    { inversion R; subst; [congruence | assumption]. }
    destruct (build_tree_lists prefix R P
                (Nat.lt_succ_diag_r (depth t)) D)
      as [lines E].
    exists lines. intros fuel Dp. rewrite <- E.
    apply build_tree_stable; [lia|]. rewrite E. discriminate.
Qed.

(** C7.  A root that holds the files [a.txt] and [z.txt] and the directory
    [sub], which holds the file [inner.txt]: the lines of the program are
    the root path, then [a.txt], [sub], [inner.txt] one level in under
    [sub], and [z.txt] with the terminal connector; in whatever order the
    root is listed. *)
Theorem main_example (os : OS) (root : str) (names : list str)
    (fuel : nat) :
  listdir os root = inr names ->
  Permutation names [text "a.txt"; text "z.txt"; text "sub"] ->
  isdir os (join os root (text "a.txt")) = false ->
  isdir os (join os root (text "z.txt")) = false ->
  isdir os (join os root (text "sub")) = true ->
  listdir os (join os root (text "sub")) = inr [text "inner.txt"] ->
  isdir os (join os (join os root (text "sub")) (text "inner.txt")) = false ->
  main_lines os (2 + fuel) root =
  Ok [ root;
       text "├── a.txt";
       text "├── sub";
       text "│   └── inner.txt";
       text "└── z.txt" ].
Proof.
  intros L P Da Dz Ds Ls Di.
  assert (K : kept names = [a_txt; sub_name; z_txt]).
  { unfold kept. rewrite (sorted_unique P). reflexivity. }
  assert (Ki : kept [text "inner.txt"] = [inner_txt]) by reflexivity.
  fold a_txt in Da. fold z_txt in Dz.
  fold sub_name in Ds, Ls, Di. fold inner_txt in Di.
  unfold main_lines. change (2 + fuel) with (S (S fuel)).
  rewrite (build_tree_listed os (S fuel) root [] L), K.
  unfold blocks, block. rewrite Da, Dz, Ds.
  rewrite (build_tree_listed os fuel (join os root sub_name) _ Ls), Ki.
  unfold blocks, block. rewrite Di.
  reflexivity.
Qed.

(** ** Concrete runs *)

Ltac differ := let H := fresh in intro H; vm_compute in H; discriminate H.

Lemma build_tree_children_witness :
  listdir project_os (text "proj") = inr project_names /\
  build_tree project_os 2 (text "proj") [] = Ok project_lines /\
  (exists bs,
      project_lines = concat bs /\
      length bs = 3 /\
      nth_error bs 1 = Some [text "├── private"]) /\
  (exists lines, build_tree project_os 2 (text "proj") [] = Ok lines).
Proof.
  destruct (build_tree_children project_os 1 (text "proj") []
              (names := project_names) eq_refl) as [A B].
  split; [reflexivity|]. split; [reflexivity|]. split.
  - destruct (A project_lines eq_refl) as [bs [E [Len Nth]]].
    exists bs. split; [exact E|]. split; [exact Len|].
    destruct (Nth 1 (text "private") eq_refl) as [sub [N1 S1]].
    vm_compute in S1. injection S1 as <-. exact N1.
  - apply B. intros index entry E D.
    destruct index as [|[|[|[|index]]]]; vm_compute in E;
      try discriminate E; injection E as <-;
      try (vm_compute in D; discriminate D);
      eexists; vm_compute; reflexivity.
Defined.

Lemma build_tree_excludes_witness :
  build_tree project_os 2 (text "proj") [] = Ok project_lines /\
  In (text "    ├── a") project_lines /\
  exists (chain : list str) (dir p : str) (names : list str)
         (entry : str) (is_last : bool),
    visits project_os (text "proj") [] chain dir p /\
    dir = fold_left (join project_os) chain (text "proj") /\
    listdir project_os dir = inr names /\
    In entry names /\
    text "    ├── a" = p ++ connector is_last ++ entry /\
    Forall (fun name =>
              startswith name (text ".") = false /\
              name <> text "node_modules")
      (chain ++ [entry]).
Proof.
  assert (I : In (text "    ├── a") project_lines).
  { right. right. right. left. reflexivity. }
  split; [reflexivity|]. split; [exact I|].
  exact (build_tree_excludes project_os 2 (text "proj") []
           (text "    ├── a") eq_refl I).
Defined.

Lemma build_tree_sorted_witness :
  listdir abc_os (text "d") = inr [text "b"; text "a"; text "c"] /\
  build_tree abc_os 1 (text "d") []
  = Ok [text "├── a"; text "├── b"; text "└── c"] /\
  exists bs,
    [text "├── a"; text "├── b"; text "└── c"] = concat bs /\
    Forall2
      (fun entry b => exists is_last sub,
           b = ([] ++ connector is_last ++ entry) :: sub /\
           if isdir abc_os (join abc_os (text "d") entry)
           then build_tree abc_os 0 (join abc_os (text "d") entry)
                  ([] ++ indent is_last) = Ok sub
           else sub = [])
      [text "a"; text "b"; text "c"] bs /\
    StronglySorted lex_le [text "a"; text "b"; text "c"].
Proof.
  split; [reflexivity|]. split; [reflexivity|].
  destruct (build_tree_sorted abc_os 0 (text "d") []
              (names := [text "b"; text "a"; text "c"])
              (lines := [text "├── a"; text "├── b"; text "└── c"])
              eq_refl eq_refl)
    as (entries & bs & E & F & S & _ & Q).
  rewrite (Q (Permutation_refl _)) in *.
  exists bs. auto.
Defined.


Lemma build_tree_line_count_witness :
  represents home_os (text "home") home_tree /\
  clean home_tree /\
  permission_only home_tree /\
  (exists lines,
      build_tree home_os 3 (text "home") [] = Ok lines /\
      length lines = reachable_entries home_tree) /\
  reachable_entries home_tree = 2 /\
  total_entries home_tree = 3 /\
  represents example_os (text "root") example_tree /\
  clean example_tree /\
  listable example_tree /\
  (exists lines,
      build_tree example_os 3 (text "root") [] = Ok lines /\
      length lines = total_entries example_tree).
Proof.
  assert (Rh : represents home_os (text "home") home_tree).
  { repeat (constructor; try reflexivity). }
  assert (Ch : clean home_tree).
  { repeat (constructor; try reflexivity; try differ). }
  assert (Ph : permission_only home_tree).
  { constructor; [left; reflexivity|].
    constructor; [|repeat constructor].
    constructor; [right; reflexivity|]. repeat constructor. }
  assert (Re : represents example_os (text "root") example_tree).
  { repeat (constructor; try reflexivity). }
  assert (Ce : clean example_tree).
  { repeat (constructor; try reflexivity; try differ). }
  assert (Le : listable example_tree).
  { repeat constructor. }
  split; [exact Rh|]. split; [exact Ch|]. split; [exact Ph|].
  split; [|split; [reflexivity|split; [reflexivity|]]];
    [|split; [exact Re|split; [exact Ce|split; [exact Le|]]]].
  - destruct (@build_tree_line_count home_os (text "home") [] home_tree
                Rh Ch) as [A B].
    destruct (B Ph) as [lines E]; [discriminate|].
    assert (E3 : build_tree home_os 3 (text "home") [] = Ok lines).
    { apply E. vm_compute. lia. }
    exists lines. split; [exact E3|]. exact (proj1 (A 3 lines E3)).
  - destruct (@build_tree_line_count example_os (text "root") []
                example_tree Re Ce) as [A _].
    eexists. split; [reflexivity|].
    apply (A 3); [reflexivity | exact Le].
Defined.

Lemma build_tree_contiguous_witness :
  build_tree project_os 2 (text "proj") [] = Ok project_lines /\
  (exists pre sub post fuel',
      project_lines = pre ++ text "└── src" :: sub ++ post /\
      build_tree project_os fuel' (text "proj/src") (text "    ") = Ok sub) /\
  (exists chain dir p names index entry,
      visits project_os (text "proj") [] chain dir p /\
      listdir project_os dir = inr names /\
      nth_error (filter keep (sorted names)) index = Some entry /\
      text "    ├── b"
      = p ++ connector (index =? length (filter keep (sorted names)) - 1)
          ++ entry /\
      length p = 0 + 4 * length chain).
Proof.
  destruct (build_tree_contiguous project_os 2 (text "proj") []
              (lines := project_lines) eq_refl) as [A B].
  split; [reflexivity|]. split.
  - exact (A [] (text "proj") [] project_names 2 (text "src")
             (visits_start project_os (text "proj") [])
             eq_refl eq_refl eq_refl).
  - apply B. do 4 right. left. reflexivity.
Defined.

Lemma main_example_witness :
  listdir example_os (text "root")
  = inr [text "z.txt"; text "sub"; text "a.txt"] /\
  isdir example_os (join example_os (text "root") (text "sub")) = true /\
  main_lines example_os 2 (text "root")
  = Ok [ text "root";
         text "├── a.txt";
         text "├── sub";
         text "│   └── inner.txt";
         text "└── z.txt" ].
Proof.
  split; [reflexivity|]. split; [reflexivity|].
  apply (main_example example_os (text "root")
           (names := [text "z.txt"; text "sub"; text "a.txt"]) 0);
    try reflexivity.
  apply Permutation_sym.
  exact (Permutation_cons_append [text "z.txt"; text "sub"] (text "a.txt")).
Defined.

Lemma build_tree_deterministic_witness :
  same_state example_os (os_of_disk example_disk_again) /\
  build_tree example_os 2 (text "root") []
  = build_tree (os_of_disk example_disk_again) 7 (text "root") [].
Proof.
  assert (S : same_state example_os (os_of_disk example_disk_again)).
  { split; [|split; [|reflexivity]]; intros p;
      unfold same_listing;
      cbn [listdir isdir example_os os_of_disk example_disk
             example_disk_again lookup];
      repeat match goal with
             | |- context [str_eqb ?q p] => destruct (str_eqb q p)
             end;
      try reflexivity.
    exact (Permutation_cons_append [text "sub"; text "a.txt"]
             (text "z.txt")). }
  split; [exact S|].
  apply build_tree_deterministic; [exact S | differ | differ].
Defined.

Lemma build_tree_terminates_witness :
  represents example_os (text "root") example_tree /\
  (exists r,
      r <> OutOfFuel /\
      build_tree example_os 3 (text "root") [] = r /\
      build_tree example_os 9 (text "root") [] = r) /\
  (exists lines,
      build_tree example_os 1 (text "root/sub") [] = Ok lines /\
      length lines = 1) /\
  build_tree example_os 2 (text "root") []
  = build_tree example_os_ghost 2 (text "root") [].
Proof.
  assert (R : represents example_os (text "root") example_tree).
  { repeat (constructor; try reflexivity). }
  destruct (build_tree_terminates example_os []) as (T & B & G).
  split; [exact R|]. split; [|split].
  - destruct (T (text "root") example_tree R) as [r [N E]].
    exists r. split; [exact N|].
    split; apply E; vm_compute; lia.
  - apply (B (text "root/sub") [text "inner.txt"] eq_refl).
    intros entry [<-|[]] _. reflexivity.
  - apply G; try reflexivity.
    intros p D. unfold example_os_ghost. cbn [listdir].
    destruct (str_eqb (text "root/a.txt") p) eqn:Q; [|reflexivity].
    apply str_eqb_eq in Q. subst p. discriminate D.
Defined.

(** * Further properties of the program *)

(** ** Sorting and filtering *)

(** X1.  The program sorts the listing and then filters it; filtering
    first and sorting afterwards gives the same entries in the same
    order. *)
Theorem sort_filter_commute (names : list str) :
  filter keep (sorted names) = sorted (filter keep names).
Proof.
  apply strongly_sorted_unique.
  - apply filter_sorted, sorted_sorted.
  - apply sorted_sorted.
  - eapply perm_trans; [apply kept_perm|]. apply sorted_perm.
Qed.

(** ** Nothing to show *)

Lemma not_allowed (name : str) :
  ~ allowed name ->
  startswith name (text ".") = true \/ name = text "node_modules".
Proof.
  intros N. destruct (keep name) eqn:K.
  - apply keep_allowed in K. contradiction.
  - unfold keep in K. apply andb_false_iff in K.
    rewrite !negb_false_iff in K. destruct K as [K|K]; [left; exact K|].
    right. apply str_eqb_eq. exact K.
Qed.

(** X2.  On a directory that can be listed, [build_tree] returns the empty
    list exactly when every name in the listing begins with [.] or is
    [node_modules]; an empty directory is the plain case of it. *)
Theorem build_tree_nothing (os : OS) (fuel : nat) (path prefix : str)
    (names : list str) :
  listdir os path = inr names ->
  (build_tree os (S fuel) path prefix = Ok [] <->
   Forall (fun name =>
             startswith name (text ".") = true \/
             name = text "node_modules") names).
Proof.
  intros L. split.
  - intros H.
    destruct (build_tree_split os fuel path prefix L H)
      as [bs [E [Len Nth]]].
    assert (K : kept names = []).
    { destruct (kept names) as [|e rest] eqn:K; auto.
      destruct (Nth 0 e eq_refl) as [sub [N0 _]].
      destruct bs as [|b bs]; [discriminate|].
      injection N0 as ->. discriminate. }
    apply Forall_forall. intros name I. apply not_allowed.
    intros A.
    assert (In name (kept names)) by (apply kept_In; auto).
    rewrite K in *. contradiction.
  - intros F. rewrite (build_tree_listed os fuel path prefix L).
    assert (K : kept names = []).
    { destruct (kept names) as [|e rest] eqn:K; auto.
      assert (I : In e (kept names)) by (rewrite K; left; reflexivity).
      apply kept_In in I. destruct I as [I [A1 A2]].
      rewrite Forall_forall in F. destruct (F _ I); congruence. }
    rewrite K. reflexivity.
Qed.

(** ** Where an error comes from *)

Lemma blocks_raise (os : OS) rec start_path prefix entries rest e :
  forall index,
    blocks os rec start_path prefix entries index rest = Raise e ->
    exists i entry,
      nth_error rest i = Some entry /\
      isdir os (join os start_path entry) = true /\
      rec (join os start_path entry)
        (prefix ++ indent (is_last_at entries (index + i))) = Raise e.
Proof.
  induction rest as [|x rest IH]; intros index H; simpl in H;
    [discriminate|].
  unfold block in H.
  destruct (isdir os (join os start_path x)) eqn:D.
  - destruct (rec _ _) as [sub| |] eqn:R; simpl in H; try discriminate.
    + destruct (blocks _ _ _ _ _ _ _) as [bs| |] eqn:B;
        simpl in H; try discriminate.
      injection H as ->.
      destruct (IH _ B) as (i & entry & E1 & E2 & E3).
      exists (S i), entry. repeat split; auto.
      replace (index + S i) with (S index + i) by lia. exact E3.
    + injection H as ->. exists 0, x. rewrite Nat.add_0_r. auto.
  - simpl in H.
    destruct (blocks _ _ _ _ _ _ _) as [bs| |] eqn:B;
      simpl in H; try discriminate.
    injection H as ->.
    destruct (IH _ B) as (i & entry & E1 & E2 & E3).
    exists (S i), entry. repeat split; auto.
    replace (index + S i) with (S index + i) by lia. exact E3.
Qed.

(** X3.  An error that [build_tree] raises is the error that listing a
    directory raised, and that directory is one the recursion visits: the
    start path, or a directory reached from it through listed names that
    pass the filter and the directory test.  It is never a permission
    error. *)
Theorem build_tree_raise_origin (os : OS) (fuel : nat) (start prefix : str)
    (e : exn) :
  build_tree os fuel start prefix = Raise e ->
  e <> PermissionError /\
  exists chain dir p,
    visits os start prefix chain dir p /\
    listdir os dir = inl e.
Proof.
  revert start prefix.
  induction fuel as [|fuel IH]; intros start prefix H; [discriminate|].
  destruct (listdir os start) as [e0|names] eqn:L.
  - simpl in H. rewrite L in H.
    destruct e0; try discriminate; injection H as <-;
      (split; [discriminate|];
       exists [], start, prefix; split; [constructor | exact L]).
  - rewrite (build_tree_listed os fuel start prefix L) in H.
    destruct (blocks os _ _ _ _ _ _) as [bs| |] eqn:B; try discriminate.
    simpl in H. injection H as ->.
    destruct (blocks_raise _ _ _ _ _ _ _ B) as (i & entry & E1 & E2 & E3).
    simpl in E3.
    destruct (IH _ _ E3) as [N (chain & dir & p & V & Ld)].
    split; [exact N|].
    exists (entry :: chain), dir, p. split; [|exact Ld].
    eapply visits_cons; eauto.
Qed.

(** ** The entry point on a root that cannot be listed *)

(** X4.  A root whose listing is denied does not stop the program: it
    goes on to [file.txt] with the root path as its only line.  If the
    file cannot be opened the run ends with that error and nothing is
    touched; if it can, the root path can be encoded, and the write and
    the print go through, the file holds the root path alone and the
    console the message and a newline.  A root whose listing fails in any
    other way ends the run with that error before the file is opened:
    the file is not touched and nothing is printed, whatever the sink. *)
Theorem main_root_failure (os : OS) (sink : Sink) (fuel : nat)
    (argument : option str) (directory : str) :
  directory = match argument with Some d => d | None => text "." end ->
  (listdir os directory = inl PermissionError ->
   forall e,
     open_error sink (text "file.txt") = Some e ->
     main os sink (S fuel) argument =
     Some {| raised := Some (OpenRaised e);
             file_txt := Untouched;
             console := Untouched |}) /\
  (listdir os directory = inl PermissionError ->
   open_error sink (text "file.txt") = None ->
   encodable directory = true ->
   write_error sink (text "file.txt") directory = None ->
   print_error sink (text "Directory tree saved to file.txt") = None ->
   main os sink (S fuel) argument =
   Some {| raised := None;
           file_txt := Holds directory;
           console := Holds (text "Directory tree saved to file.txt"
                             ++ newline) |}) /\
  (forall e,
      e <> PermissionError ->
      listdir os directory = inl e ->
      main os sink (S fuel) argument =
      Some {| raised := Some (ListdirRaised e);
              file_txt := Untouched;
              console := Untouched |}).
Proof.
  intros ->. split; [|split].
  - intros L e O. unfold main, main_lines.
    rewrite build_tree_denied by exact L. cbn [bind app].
    rewrite O. reflexivity.
  - intros L O E W P. unfold main, main_lines.
    rewrite build_tree_denied by exact L. cbn [bind app str_join].
    rewrite O, E, W. unfold message. rewrite P. reflexivity.
  - intros e N L. unfold main, main_lines.
    rewrite build_tree_raises with (e := e) by assumption. reflexivity.
Qed.

(** ** The shape of a line *)

Lemma is_last_name_nth (entries : list str) (index : nat) (entry : str) :
  NoDup entries ->
  nth_error entries index = Some entry ->
  (index =? length entries - 1) = is_last_name entries entry.
Proof.
  intros ND E.
  assert (NE : entries <> []) by (intros ->; destruct index; discriminate).
  destruct (exists_last NE) as [front [final ->]].
  assert (Lt : index < length (front ++ [final])).
  { apply nth_error_Some. congruence. }
  unfold is_last_name. rewrite rev_app_distr. simpl.
  rewrite length_app in *. simpl in *.
  destruct (Nat.eqb_spec index (length front + 1 - 1)) as [Q|Q].
  - rewrite nth_error_app2 in E by lia.
    replace (index - length front) with 0 in E by lia.
    injection E as <-. symmetry. apply str_eqb_refl.
  - rewrite nth_error_app1 in E by lia.
    apply nth_error_In in E.
    apply NoDup_remove_2 in ND. rewrite app_nil_r in ND.
    destruct (str_eqb final entry) eqn:S; auto.
    apply str_eqb_eq in S. subst. contradiction.
Qed.

Lemma kept_NoDup (names : list str) : NoDup names -> NoDup (kept names).
Proof.
  intros ND. apply NoDup_filter.
  eapply Permutation_NoDup; [apply sorted_perm | exact ND].
Qed.

(** X5.  With the distinct names that a directory has, a line is fixed by
    the entry it shows and the directories above it.  Every line is the
    line of an entry listed in a directory that the recursion visits, and
    it is the prefix of that directory, then the terminal connector if
    the entry is the last kept child of its directory and the
    continuation connector if it is not, then the name; the prefix of a
    visited directory is the starting prefix, then for each directory on
    the way down to it four spaces if that directory is the last kept
    child of its parent and the bar segment if it is not. *)
Theorem build_tree_line_shape (os : OS) (fuel : nat) (start prefix : str)
    (lines : list str) (l : str) :
  (forall p names, listdir os p = inr names -> NoDup names) ->
  build_tree os fuel start prefix = Ok lines ->
  In l lines ->
  exists chain dir p names entry,
    visits os start prefix chain dir p /\
    p = ancestors_prefix os start prefix chain /\
    listdir os dir = inr names /\
    In entry (filter keep (sorted names)) /\
    l = p
        ++ connector (is_last_name (filter keep (sorted names)) entry)
        ++ entry.
Proof.
  intros ND. revert start prefix lines l.
  induction fuel as [|fuel IH]; intros start prefix lines l H I;
    [discriminate|].
  destruct (listdir os start) as [e|names] eqn:L.
  - simpl in H. rewrite L in H. destruct e; try discriminate.
    injection H as <-. contradiction.
  - destruct (build_tree_split os fuel start prefix L H)
      as [bs [-> [Len Nth]]].
    apply in_concat in I. destruct I as [b [Ib Il]].
    destruct (In_nth_error _ _ Ib) as [index Eb].
    destruct (nth_error (kept names) index) as [entry|] eqn:E.
    + destruct (Nth _ _ E) as [sub [E1 E2]].
      pose proof (@is_last_name_nth _ _ _ (@kept_NoDup _ (ND _ _ L)) E)
        as LN.
      rewrite E1 in Eb. injection Eb as <-.
      destruct Il as [<-|Il].
      * exists [], start, prefix, names, entry.
        split; [constructor|]. split; [reflexivity|].
        split; [exact L|]. split; [exact (nth_error_In _ _ E)|].
        rewrite LN. reflexivity.
      * destruct (isdir os (join os start entry)) eqn:D;
          [|subst sub; contradiction].
        destruct (IH _ _ _ _ E2 Il)
          as (chain & dir & p & names' & entry' & V & -> & R).
        exists (entry :: chain), dir,
          (ancestors_prefix os start prefix (entry :: chain)),
          names', entry'.
        assert (Q : ancestors_prefix os start prefix (entry :: chain)
                    = ancestors_prefix os (join os start entry)
                        (prefix ++ indent
                                     (index =? length (kept names) - 1))
                        chain).
        { simpl. rewrite L, <- LN. reflexivity. }
        rewrite Q. split; [|split; [reflexivity | exact R]].
        eapply visits_cons; eauto.
        rewrite (is_last_at_nth _ _ E). exact V.
    + apply nth_error_None in E.
      assert (index < length bs) by (apply nth_error_Some; congruence).
      lia.
Qed.

(** ** What the program does not look at *)

Lemma blocks_agree (os1 os2 : OS) rec1 rec2 start_path prefix entries rest :
  forall index,
    (forall i e,
        nth_error rest i = Some e ->
        join os1 start_path e = join os2 start_path e /\
        isdir os1 (join os1 start_path e)
        = isdir os2 (join os1 start_path e) /\
        (isdir os1 (join os1 start_path e) = true ->
         rec1 (join os1 start_path e)
           (prefix ++ indent (is_last_at entries (index + i)))
         = rec2 (join os1 start_path e)
             (prefix ++ indent (is_last_at entries (index + i))))) ->
    blocks os1 rec1 start_path prefix entries index rest =
    blocks os2 rec2 start_path prefix entries index rest.
Proof.
  induction rest as [|e rest IH]; intros index H; simpl; auto.
  destruct (H 0 e eq_refl) as (J & D & R). rewrite Nat.add_0_r in R.
  rewrite IH.
  - unfold block. rewrite <- J, <- D.
    destruct (isdir os1 (join os1 start_path e)) eqn:E; auto.
    rewrite (R eq_refl). reflexivity.
  - intros i e' E.
    replace (S index + i) with (index + S i) by lia.
    exact (H (S i) e' E).
Qed.

(** X6.  [build_tree] never looks behind a name that it leaves out.  Take
    two states with the same listing of the start path.  Suppose that in
    every directory that the recursion visits in the first state, every
    listed name that passes the filter is joined to the same path in
    both, is a directory in both or in neither, and if it is a directory
    has the same listing in both.  Then the outcomes are the same.
    Nothing is asked of what the two states hold behind hidden names and
    behind [node_modules], where the recursion does not go. *)
Theorem build_tree_ignores_excluded (os1 os2 : OS) (start prefix : str) :
  (forall chain dir p names e,
      visits os1 start prefix chain dir p ->
      listdir os1 dir = inr names ->
      In e names ->
      startswith e (text ".") = false ->
      e <> text "node_modules" ->
      join os1 dir e = join os2 dir e /\
      isdir os1 (join os1 dir e) = isdir os2 (join os1 dir e) /\
      (isdir os1 (join os1 dir e) = true ->
       listdir os1 (join os1 dir e) = listdir os2 (join os1 dir e))) ->
  listdir os1 start = listdir os2 start ->
  forall fuel,
    build_tree os1 fuel start prefix = build_tree os2 fuel start prefix.
Proof.
  intros H E fuel. revert start prefix H E.
  induction fuel as [|fuel IH]; intros start prefix H E; auto.
  destruct (listdir os1 start) as [e|names] eqn:L1.
  - simpl. rewrite <- E, L1. reflexivity.
  - rewrite (build_tree_listed os1 fuel start prefix L1).
    rewrite (build_tree_listed os2 fuel start prefix (eq_sym E)).
    apply f_equal2; auto.
    apply blocks_agree. intros i e Ei. simpl.
    pose proof (nth_error_In _ _ Ei) as I.
    apply kept_In in I. destruct I as [I [A1 A2]].
    destruct (H [] start prefix names e (visits_start os1 start prefix)
                L1 I A1 A2) as (J & D & Lc).
    split; [exact J|]. split; [exact D|].
    intros Dn. apply IH; [|exact (Lc Dn)].
    intros chain dir p names' e' V.
    apply (H (e :: chain) dir p names' e').
    eapply visits_cons; eauto.
Qed.

(** ** A directory without directories *)

Lemma flat_lines_snoc (prefix : str) (front : list str) (final : str) :
  flat_lines prefix (front ++ [final]) =
  map (fun entry => prefix ++ continuation ++ entry) front
  ++ [prefix ++ terminal ++ final].
Proof.
  induction front as [|e front IH]; auto.
  destruct front as [|x front]; [reflexivity|].
  change (flat_lines prefix ((e :: x :: front) ++ [final]))
    with ((prefix ++ continuation ++ e)
            :: flat_lines prefix ((x :: front) ++ [final])).
  rewrite IH. reflexivity.
Qed.

Lemma concat_singletons (A : Type) (l : list A) :
  concat (map (fun x => [x]) l) = l.
Proof. induction l as [|x l IH]; simpl; congruence. Qed.

Lemma blocks_flat (os : OS) rec start_path prefix entries :
  forall rest index,
    index + length rest = length entries ->
    (forall e, In e rest -> isdir os (join os start_path e) = false) ->
    blocks os rec start_path prefix entries index rest =
    Ok (map (fun line => [line]) (flat_lines prefix rest)).
Proof.
  induction rest as [|e rest IH]; intros index Len H; auto.
  cbn [blocks]. unfold block. rewrite (H e (or_introl eq_refl)).
  simpl in Len.
  rewrite IH; [|lia|intros e' I; apply H; right; exact I].
  unfold is_last_at. destruct rest as [|x rest].
  - simpl in Len.
    replace (Z.of_nat index =? Z.of_nat (length entries) - 1)%Z
      with true by (symmetry; apply Z.eqb_eq; lia).
    reflexivity.
  - simpl in Len.
    replace (Z.of_nat index =? Z.of_nat (length entries) - 1)%Z
      with false by (symmetry; apply Z.eqb_neq; lia).
    reflexivity.
Qed.

(** X7.  A directory none of whose kept children is a directory gives one
    line per kept child and nothing else: the continuation connector in
    front of every name but the last, the terminal connector in front of
    the last, each after the prefix. *)
Theorem build_tree_flat (os : OS) (fuel : nat) (path prefix : str)
    (names front : list str) (final : str) :
  listdir os path = inr names ->
  (forall entry,
      In entry names ->
      startswith entry (text ".") = false ->
      entry <> text "node_modules" ->
      isdir os (join os path entry) = false) ->
  filter keep (sorted names) = front ++ [final] ->
  build_tree os (S fuel) path prefix =
  Ok (map (fun entry => prefix ++ continuation ++ entry) front
      ++ [prefix ++ terminal ++ final]).
Proof.
  intros L H K.
  rewrite (build_tree_listed os fuel path prefix L).
  rewrite blocks_flat.
  - cbn [bind]. unfold kept.
    rewrite concat_singletons, K, flat_lines_snoc. reflexivity.
  - reflexivity.
  - intros e I. apply kept_In in I. destruct I as [I [A1 A2]]. auto.
Qed.

(** ** The lines of the file *)

Lemma connector_no_newline (b : bool) : ~ In 10%N (connector b).
Proof. destruct b; intro H; vm_compute in H; intuition discriminate. Qed.

Lemma indent_no_newline (b : bool) : ~ In 10%N (indent b).
Proof. destruct b; intro H; vm_compute in H; intuition discriminate. Qed.

Lemma build_tree_no_newline (os : OS) :
  (forall p names e, listdir os p = inr names -> In e names -> ~ In 10%N e) ->
  forall fuel start prefix lines,
    ~ In 10%N prefix ->
    build_tree os fuel start prefix = Ok lines ->
    Forall (fun l => ~ In 10%N l) lines.
Proof.
  intros NN. induction fuel as [|fuel IH]; intros start prefix lines NP H;
    [discriminate|].
  destruct (listdir os start) as [e|names] eqn:L.
  - simpl in H. rewrite L in H. destruct e; try discriminate.
    injection H as <-. constructor.
  - destruct (build_tree_split os fuel start prefix L H)
      as [bs [-> [Len Nth]]].
    apply Forall_concat. apply Forall_forall. intros b Ib.
    destruct (In_nth_error _ _ Ib) as [index Eb].
    destruct (nth_error (kept names) index) as [entry|] eqn:E.
    + destruct (Nth _ _ E) as [sub [E1 E2]].
      rewrite E1 in Eb. injection Eb as <-.
      constructor.
      * intros I. apply in_app_or in I. destruct I as [I|I]; [auto|].
        apply in_app_or in I. destruct I as [I|I].
        -- exact (connector_no_newline _ I).
        -- apply nth_error_In, kept_In in E. destruct E as [E _].
           exact (NN _ _ _ L E I).
      * destruct (isdir os (join os start entry)); [|subst; constructor].
        apply (IH _ _ _ (fun I => match in_app_or _ _ _ I with
                                  | or_introl I1 => NP I1
                                  | or_intror I2 => indent_no_newline _ I2
                                  end) E2).
    + apply nth_error_None in E.
      assert (index < length bs) by (apply nth_error_Some; congruence).
      lia.
Qed.

Lemma str_join_newlines (l : str) (ls : list str) :
  Forall (fun l => ~ In 10%N l) (l :: ls) ->
  count_occ N.eq_dec (str_join newline (l :: ls)) 10%N = length ls.
Proof.
  revert l. induction ls as [|l' ls IH]; intros l F.
  - inversion F; subst. simpl. apply count_occ_not_In. assumption.
  - inversion F as [|? ? NL F']; subst.
    change (str_join newline (l :: l' :: ls))
      with (l ++ newline ++ str_join newline (l' :: ls)).
    rewrite !count_occ_app, IH by exact F'.
    apply (count_occ_not_In N.eq_dec) in NL.
    exact (f_equal (fun n => n + (1 + length ls)) NL).
Qed.

(** X8.  When no name in the file system and not the root path holds a
    newline, a run that ends without an exception leaves in [file.txt] a
    text with as many newline characters as [build_tree] returned lines:
    the newlines of the file are the ones that separate the root line and
    the lines of the entries. *)
Theorem main_file_lines (os : OS) (sink : Sink) (fuel : nat)
    (argument : option str) (directory : str) (r : run) :
  directory = match argument with Some d => d | None => text "." end ->
  (forall p names e, listdir os p = inr names -> In e names -> ~ In 10%N e) ->
  ~ In 10%N directory ->
  main os sink fuel argument = Some r ->
  raised r = None ->
  exists sub written,
    build_tree os fuel directory [] = Ok sub /\
    file_txt r = Holds written /\
    count_occ N.eq_dec written 10%N = length sub.
Proof.
  intros -> NN ND H R. unfold main, main_lines in H.
  destruct (build_tree os fuel _ []) as [sub| |] eqn:B; cbn [bind] in H;
    try discriminate;
    [|injection H as <-; discriminate R].
  destruct (open_error sink _); [injection H as <-; discriminate R|].
  destruct (encodable _); [|injection H as <-; discriminate R].
  destruct (write_error sink _ _); [injection H as <-; discriminate R|].
  destruct (print_error sink _); [injection H as <-; discriminate R|].
  injection H as <-. cbn [file_txt].
  exists sub. eexists. split; [reflexivity|]. split; [reflexivity|].
  apply str_join_newlines.
  constructor; [exact ND|].
  eapply build_tree_no_newline with (prefix := []); eauto.
Qed.

(** ** Nothing that passes the filter is left out *)

(** X9.  Every entry that passes the filter in the listing of a directory
    that the recursion visits has its line in the output, with the prefix
    of that directory in front: at whatever depth, a name is missing from
    the output only if it is hidden, is [node_modules], or lies beneath
    such a name or beneath a directory that cannot be listed. *)
Theorem build_tree_complete (os : OS) (fuel : nat) (start prefix : str)
    (lines : list str) (chain : list str) (dir p : str)
    (names : list str) (entry : str) :
  build_tree os fuel start prefix = Ok lines ->
  visits os start prefix chain dir p ->
  listdir os dir = inr names ->
  In entry names ->
  startswith entry (text ".") = false ->
  entry <> text "node_modules" ->
  exists is_last, In (p ++ connector is_last ++ entry) lines.
Proof.
  intros H V L I A1 A2.
  destruct (visits_segment fuel H V) as (fuel' & sub & pre & post & R & ->).
  destruct fuel' as [|fuel']; [discriminate|].
  destruct (build_tree_split os fuel' dir p L R) as [bs [-> [Len Nth]]].
  assert (Ik : In entry (kept names)) by (apply kept_In; split; [|split]; auto).
  destruct (In_nth_error _ _ Ik) as [index E].
  destruct (Nth _ _ E) as [sub [E1 _]].
  exists (index =? length (kept names) - 1).
  apply in_or_app. right. apply in_or_app. left.
  apply in_concat. eexists. split.
  - eapply nth_error_In. exact E1.
  - left. reflexivity.
Qed.

(** ** More concrete runs *)

(** Case analysis on the path [p] of a listing [L] read from a table. *)

Ltac table_cases p L :=
  cbn [listdir isdir os_of_disk lookup
       example_os example_disk app_os app_disk] in L;
  repeat match type of L with
         | context [str_eqb ?q p] =>
             let Q := fresh "Q" in
             destruct (str_eqb q p) eqn:Q;
             [apply str_eqb_eq in Q; subst p | clear Q];
             cbv beta iota in L
         end;
  try discriminate L.

Ltac distinct_names :=
  repeat (constructor;
          [let H := fresh in intro H; vm_compute in H; intuition discriminate|]);
  constructor.

Lemma build_tree_nothing_witness :
  listdir dot_os (text "conf")
  = inr [text ".a"; text "node_modules"; text ".b"] /\
  build_tree dot_os 1 (text "conf") [] = Ok [] /\
  Forall (fun name =>
            startswith name (text ".") = true \/
            name = text "node_modules")
    [text ".a"; text "node_modules"; text ".b"].
Proof.
  assert (F : Forall (fun name =>
                        startswith name (text ".") = true \/
                        name = text "node_modules")
                [text ".a"; text "node_modules"; text ".b"]).
  { repeat constructor; (left; reflexivity) || (right; reflexivity). }
  split; [reflexivity|]. split; [|exact F].
  apply (build_tree_nothing dot_os 0 (text "conf") []
           (names := [text ".a"; text "node_modules"; text ".b"]) eq_refl).
  exact F.
Defined.

Lemma build_tree_raise_origin_witness :
  build_tree project_os 2 (text "work") [] = Raise OSError /\
  OSError <> PermissionError /\
  exists chain dir p,
    visits project_os (text "work") [] chain dir p /\
    listdir project_os dir = inl OSError.
Proof.
  split; [reflexivity|].
  exact (build_tree_raise_origin project_os 2 (text "work") [] eq_refl).
Defined.

Lemma main_root_failure_witness :
  listdir project_os (text "proj/private") = inl PermissionError /\
  main project_os read_only_sink 1 (Some (text "proj/private"))
  = Some {| raised := Some (OpenRaised PermissionError);
            file_txt := Untouched;
            console := Untouched |} /\
  main project_os willing_sink 1 (Some (text "proj/private"))
  = Some {| raised := None;
            file_txt := Holds (text "proj/private");
            console := Holds (text "Directory tree saved to file.txt"
                              ++ newline) |} /\
  listdir project_os (text ".") = inl FileNotFoundError /\
  main project_os willing_sink 1 None
  = Some {| raised := Some (ListdirRaised FileNotFoundError);
            file_txt := Untouched;
            console := Untouched |}.
Proof.
  split; [reflexivity|]. split; [|split; [|split; [reflexivity|]]].
  - apply (@main_root_failure project_os read_only_sink 0
             (Some (text "proj/private")) (text "proj/private") eq_refl);
      reflexivity.
  - apply (@main_root_failure project_os willing_sink 0
             (Some (text "proj/private")) (text "proj/private") eq_refl);
      reflexivity.
  - apply (@main_root_failure project_os willing_sink 0 None (text ".")
             eq_refl).
    + discriminate.
    + reflexivity.
Defined.

Lemma build_tree_line_shape_witness :
  build_tree example_os 2 (text "root") []
  = Ok [text "├── a.txt"; text "├── sub"; text "│   └── inner.txt";
        text "└── z.txt"] /\
  exists chain dir p names entry,
    visits example_os (text "root") [] chain dir p /\
    p = ancestors_prefix example_os (text "root") [] chain /\
    listdir example_os dir = inr names /\
    In entry (filter keep (sorted names)) /\
    text "│   └── inner.txt"
    = p ++ connector (is_last_name (filter keep (sorted names)) entry)
        ++ entry.
Proof.
  split; [reflexivity|].
  apply (build_tree_line_shape example_os 2 (text "root") []
           (lines := [text "├── a.txt"; text "├── sub";
                      text "│   └── inner.txt"; text "└── z.txt"])).
  - intros p names L. table_cases p L; injection L as <-; distinct_names.
  - reflexivity.
  - right. right. left. reflexivity.
Defined.

Lemma build_tree_ignores_excluded_witness :
  listdir app_os (text "app/node_modules") = inr [text "dep"] /\
  listdir app_os_other (text "app/node_modules")
  = inr [text "dep"; text "extra"] /\
  listdir app_os (text "app/node_modules/dep") = inl NotADirectoryError /\
  listdir app_os_other (text "app/node_modules/dep") = inl OSError /\
  isdir app_os (text "app/.env") = false /\
  isdir app_os_other (text "app/.env") = true /\
  build_tree app_os 3 (text "app") []
  = build_tree app_os_other 3 (text "app") [].
Proof.
  assert (Vs : forall chain dir p,
             visits app_os (text "app") [] chain dir p ->
             dir = text "app" \/ dir = text "app/lib").
  { induction 1 as [|chain dir p names index entry V IH L E D];
      [left; reflexivity|].
    apply nth_error_In in E.
    destruct IH as [->| ->]; vm_compute in L; injection L as <-;
      vm_compute in E;
      repeat (destruct E as [<-|E]; [|]); try contradiction;
      try (vm_compute in D; discriminate D).
    right. reflexivity. }
  repeat (split; [reflexivity|]).
  apply build_tree_ignores_excluded; [|reflexivity].
  intros chain dir p names e V L I A1 A2.
  destruct (Vs _ _ _ V) as [->| ->]; vm_compute in L; injection L as <-;
    repeat (destruct I as [<-|I]; [|]); try contradiction;
    try (vm_compute in A1; discriminate A1);
    try (exfalso; apply A2; reflexivity);
    (split; [reflexivity|]; split; [reflexivity|]; intros _; reflexivity).
Defined.

Lemma build_tree_flat_witness :
  listdir abc_os (text "d") = inr [text "b"; text "a"; text "c"] /\
  filter keep (sorted [text "b"; text "a"; text "c"])
  = [text "a"; text "b"] ++ [text "c"] /\
  build_tree abc_os 1 (text "d") (text "> ")
  = Ok [text "> ├── a"; text "> ├── b"; text "> └── c"].
Proof.
  split; [reflexivity|]. split; [reflexivity|].
  apply (@build_tree_flat abc_os 0 (text "d") (text "> ")
           [text "b"; text "a"; text "c"] [text "a"; text "b"] (text "c")).
  - reflexivity.
  - intros entry I _ _.
    repeat (destruct I as [<-|I]; [reflexivity|]). contradiction.
  - reflexivity.
Defined.

Lemma main_file_lines_witness :
  ~ In 10%N (text "root") /\
  exists r sub written,
    main example_os willing_sink 2 (Some (text "root")) = Some r /\
    raised r = None /\
    build_tree example_os 2 (text "root") [] = Ok sub /\
    file_txt r = Holds written /\
    count_occ N.eq_dec written 10%N = length sub /\
    length sub = 4.
Proof.
  assert (NR : ~ In 10%N (text "root")).
  { intro H; vm_compute in H; intuition discriminate. }
  split; [exact NR|].
  destruct (main example_os willing_sink 2 (Some (text "root")))
    as [r|] eqn:M; [|vm_compute in M; discriminate M].
  assert (R : raised r = None).
  { vm_compute in M. injection M as <-. reflexivity. }
  destruct (@main_file_lines example_os willing_sink 2 (Some (text "root"))
              (text "root") r eq_refl)
    as (sub & written & B & F & C).
  - intros p names e L I.
    table_cases p L; injection L as <-;
      repeat (destruct I as [<-|I]; [|]); try contradiction;
      intro H; vm_compute in H; intuition discriminate.
  - exact NR.
  - exact M.
  - exact R.
  - exists r, sub, written. repeat split; auto.
    vm_compute in B. injection B as <-. reflexivity.
Defined.

Lemma build_tree_complete_witness :
  build_tree project_os 2 (text "proj") [] = Ok project_lines /\
  visits project_os (text "proj") [] [text "src"] (text "proj/src")
    (text "    ") /\
  exists is_last,
    In (text "    " ++ connector is_last ++ text "b") project_lines.
Proof.
  assert (V : visits project_os (text "proj") [] [text "src"]
                (text "proj/src") (text "    ")).
  { exact (@visits_child project_os (text "proj") [] [] (text "proj") []
             project_names 2 (text "src")
             (@visits_start project_os (text "proj") [])
             eq_refl eq_refl eq_refl). }
  split; [reflexivity|]. split; [exact V|].
  apply (@build_tree_complete project_os 2 (text "proj") [] project_lines
           [text "src"] (text "proj/src") (text "    ")
           [text "b"; text ".secret"; text "a"; text "c";
            text "node_modules"] (text "b")
           eq_refl V eq_refl).
  - left. reflexivity.
  - reflexivity.
  - differ.
Defined.
